(** * vardefunc.noise: the Graigasm luma-adaptive grain compositor

    A shallow embedding of [src/vardefunc/noise.py] (class [Graigasm] and the
    [Grainer] interface) together with the properties of its mask builder,
    parameter normalisation, chroma modulus and compositing fold.

    Python floats are modelled by exact rationals ([Q]); equalities between
    sample values are therefore stated up to [Qeq] ([==]). *)

From Stdlib Require Import ZArith QArith Qround Qabs Lia Lqa.
From stdpp Require Import base option list strings gmap.

Local Open Scope Q_scope.

(** * Python numbers and exceptions *)

Inductive exn :=
| ValueError (msg : string)
| ZeroDivisionError
| IndexError
| AssertionError
| FormatError (msg : string)
| VSError (msg : string).

(** A computation that either raises or returns. *)
Definition result (A : Type) : Type := exn + A.

Definition raise {A} (e : exn) : result A := inl e.

#[global] Instance result_ret : MRet result := fun _ a => inr a.
#[global] Instance result_bind : MBind result := fun _ _ k m =>
  match m with inl e => inl e | inr a => k a end.

(** [a < b] on floats. *)
Definition Qltb (a b : Q) : bool := negb (Qle_bool b a).

(** [a / b] on floats: raises [ZeroDivisionError] on a zero divisor. *)
Definition truediv (a b : Q) : result Q :=
  if Qeq_bool b 0 then raise ZeroDivisionError else mret (a / b).

(** [round(x)] with one argument: the nearest integer, ties going to the even
    neighbour. *)
Definition py_round (x : Q) : Z :=
  let f := Qfloor x in
  match Qcompare (x - inject_Z f) (1 # 2) with
  | Lt => f
  | Gt => (f + 1)%Z
  | Eq => if Z.even f then f else (f + 1)%Z
  end.

(** * The per-pixel expression evaluator ([std.Expr])

    The source passes reverse-Polish expressions to [std.Expr] as strings.
    They are modelled as token lists; a number interpolated by an f-string is
    the token of that number.  Values are exact rationals, and [None] stands
    for a value outside them (an IEEE infinity or NaN, produced by a division
    by zero), about which the model says nothing. *)

Inductive binop := OpAdd | OpSub | OpMul | OpDiv | OpGe | OpLe | OpLt | OpGt | OpAnd.

Inductive token :=
| Tclip (i : nat)      (* x, y, z: the i-th input clip *)
| Tnum (q : Q)
| Tabs
| Top (o : binop)
| Ttern                (* ? *)
| Thole.               (* the placeholder _ *)

Abbreviation Tx := (Tclip 0).
Abbreviation Ty := (Tclip 1).
Abbreviation Tz := (Tclip 2).

Definition fval : Type := option Q.

Definition of_bool (b : bool) : Q := if b then 1 else 0.

Definition eval_binop (o : binop) (a b : Q) : fval :=
  match o with
  | OpAdd => Some (a + b)
  | OpSub => Some (a - b)
  | OpMul => Some (a * b)
  | OpDiv => if Qeq_bool b 0 then None else Some (a / b)
  | OpGe => Some (of_bool (Qle_bool b a))
  | OpLe => Some (of_bool (Qle_bool a b))
  | OpLt => Some (of_bool (Qltb a b))
  | OpGt => Some (of_bool (Qltb b a))
  | OpAnd => Some (of_bool (Qltb 0 a && Qltb 0 b))
  end.

(** One pass over the tokens with a value stack; the expression is well
    formed when exactly one value is left. *)
Fixpoint eval_rpn (e : list token) (args : list Q) (stack : list fval)
  : option fval :=
  match e with
  | [] => match stack with [v] => Some v | _ => None end
  | t :: e' =>
      match t, stack with
      | Tclip i, _ =>
          match args !! i with
          | Some v => eval_rpn e' args (Some v :: stack)
          | None => None
          end
      | Tnum q, _ => eval_rpn e' args (Some q :: stack)
      | Tabs, a :: s => eval_rpn e' args ((Qabs <$> a) :: s)
      | Top o, b :: a :: s =>
          eval_rpn e' args ((a ≫= fun a' => b ≫= fun b' => eval_binop o a' b') :: s)
      | Ttern, b :: a :: c :: s =>
          eval_rpn e' args ((c ≫= fun c' => if Qltb 0 c' then a else b) :: s)
      | _, _ => None
      end
  end.

(** The sample an expression yields on the given input samples, when it is
    well formed and finite. *)
Definition expr_px (e : list token) (args : list Q) : option Q :=
  mjoin (eval_rpn e args []).

(** [str.replace('_', by)]: every placeholder is replaced. *)
Definition replace_hole (by_ : list token) (e : list token) : list token :=
  flat_map (fun t => match t with Thole => by_ | _ => [t] end) e.

(** * Graigasm._make_mask: the two per-pixel operations *)

(** The inner function [_func], used as a look-up function on integer
    formats. *)
Definition _func (thr overflow peak : Q) (x : Q) : result Z :=
  let min_thr := thr - (overflow * peak) / 2 in
  let max_thr := thr + (overflow * peak) / 2 in
  if Qle_bool min_thr x && Qle_bool x max_thr then
    d ← truediv (x - min_thr) (max_thr - min_thr);
    mret (py_round (Qabs (d * peak - peak)))
  else if Qltb x min_thr then mret (py_round peak)
  else if Qltb max_thr x then mret (py_round 0)
  else mret (py_round x).

Definition min_thr_expr (thr overflow peak : Q) : list token :=
  [Tnum thr; Tnum overflow; Tnum peak; Top OpMul; Tnum 2; Top OpDiv; Top OpSub].

Definition max_thr_expr (thr overflow peak : Q) : list token :=
  [Tnum thr; Tnum overflow; Tnum peak; Top OpMul; Tnum 2; Top OpDiv; Top OpAdd].

(** The expression built for floating-point formats, by two replacements of
    the placeholder. *)
Definition mask_expr (thr overflow peak : Q) : list token :=
  let min_thr := min_thr_expr thr overflow peak in
  let max_thr := max_thr_expr thr overflow peak in
  let expr :=
    [Tx] ++ min_thr ++ [Top OpGe; Tx] ++ max_thr ++ [Top OpLe; Top OpAnd; Tx]
      ++ min_thr ++ [Top OpSub] ++ max_thr ++ min_thr
      ++ [Top OpSub; Top OpDiv; Tnum peak; Top OpMul; Tnum peak; Top OpSub; Tabs;
          Thole; Ttern] in
  let expr :=
    replace_hole ([Tx] ++ min_thr ++ [Top OpLt; Tnum peak; Thole; Ttern]) expr in
  let expr :=
    replace_hole ([Tx] ++ max_thr ++ [Top OpGt; Tnum 0; Tx; Ttern]) expr in
  expr.

(** * Clips, formats and the filter graph

    A VapourSynth script builds a graph of filter nodes; the functions of
    [Graigasm] are graph builders.  An input clip is a leaf carrying its
    properties.  The plugins' own validation of their arguments is not part
    of the graph builders, with one exception: [std.Lut] calls the Python
    function it is given while the node is built, and an exception of that
    function ends the construction.  The refusal of a width or height that
    is not positive by [std.BlankClip] is modelled apart, by [validated]. *)

Inductive ColorFamily := GRAY | RGB | YUV | YCOCG | COMPAT.
Inductive SampleType := INTEGER | FLOAT.

Record Format := {
  color_family : ColorFamily;
  sample_type : SampleType;
  bits_per_sample : Z;
  subsampling_w : Z;
  subsampling_h : Z;
  num_planes : Z
}.

Record VideoInfo := {
  vi_format : option Format;
  vi_width : Z;
  vi_height : Z
}.

Definition kwargs : Type := list (string * list Q).

(** The [Grainer] interface and its three built-in implementations; any
    other subclass is [OtherGrainer]. *)
Inductive Grainer :=
| AddGrain (kw : kwargs)
| PlaceboGrain (kw : kwargs)
| F3kdbGrain (kw : kwargs)
| OtherGrainer (cls : string).

Inductive VideoNode :=
| Source (name : string) (vi : VideoInfo)
| GetY (c : VideoNode)                                    (* vsutil.get_y *)
| Join (cs : list VideoNode)                              (* vsutil.join *)
| BlankClip (c : VideoNode) (w h : option Z) (color : list Q)
| Expr (cs : list VideoNode) (e : list token)
| Lut (c : VideoNode) (table : list Z)
| MakeDiff (a b : VideoNode)
| MergeDiff (a b : VideoNode)
| Bilinear (c : VideoNode) (w h : option Z) (fmt : option Format)
| Bicubic (c : VideoNode) (w h : Z) (filter_param_a filter_param_b : Q)
| Text (c : VideoNode) (text : string) (value : Q) (alignment : Z)
| FrameNum (c : VideoNode) (alignment : Z)
| Interleave (cs : list VideoNode)
| Call (fn : string) (c : VideoNode) (args : kwargs)       (* a grain plugin *)
| Grained (cls : string) (c : VideoNode) (strength : Q * Q).

Definition gray_of (f : Format) : Format :=
  {| color_family := GRAY; sample_type := sample_type f;
     bits_per_sample := bits_per_sample f;
     subsampling_w := 0; subsampling_h := 0; num_planes := 1 |}.

Definition yuv_of (f : Format) (ssw ssh : Z) : Format :=
  {| color_family := YUV; sample_type := sample_type f;
     bits_per_sample := bits_per_sample f;
     subsampling_w := ssw; subsampling_h := ssh; num_planes := 3 |}.

(** The properties of a node.  A filter keeps those of its first input,
    except where it is given a size or a format, extracts the luma plane, or
    joins three planes (the subsampling is then the ratio of their sizes). *)
Fixpoint info (c : VideoNode) : VideoInfo :=
  match c with
  | Source _ vi => vi
  | GetY c =>
      {| vi_format := gray_of <$> vi_format (info c);
         vi_width := vi_width (info c); vi_height := vi_height (info c) |}
  | Join (y :: u :: _) =>
      {| vi_format :=
           (fun f => yuv_of f (Z.log2 (vi_width (info y) / vi_width (info u)))
                              (Z.log2 (vi_height (info y) / vi_height (info u))))
             <$> vi_format (info y);
         vi_width := vi_width (info y); vi_height := vi_height (info y) |}
  | BlankClip c w h _ | Bilinear c w h None =>
      {| vi_format := vi_format (info c);
         vi_width := default (vi_width (info c)) w;
         vi_height := default (vi_height (info c)) h |}
  | Bilinear c w h (Some f) =>
      {| vi_format := Some f;
         vi_width := default (vi_width (info c)) w;
         vi_height := default (vi_height (info c)) h |}
  | Bicubic c w h _ _ =>
      {| vi_format := vi_format (info c); vi_width := w; vi_height := h |}
  | Join [c] | Expr (c :: _) _ | Interleave (c :: _) => info c
  | Join [] | Expr [] _ | Interleave [] =>
      {| vi_format := None; vi_width := 0; vi_height := 0 |}
  | Lut c _ | MakeDiff c _ | MergeDiff c _ | Text c _ _ _ | FrameNum c _
  | Call _ c _ | Grained _ c _ => info c
  end.

Definition format (c : VideoNode) : option Format := vi_format (info c).
Definition width (c : VideoNode) : Z := vi_width (info c).
Definition height (c : VideoNode) : Z := vi_height (info c).

(** ** Effects: exceptions and the record of [Grainer.grain] calls *)

Record grain_call := {
  call_grainer : Grainer;
  call_clip : VideoNode;
  call_strength : Q * Q
}.

(** A computation returns or raises, and leaves the list of the grain calls
    it made, in order. *)
Definition M (A : Type) : Type := result A * list grain_call.

#[global] Instance M_ret : MRet M := fun _ a => (inr a, []).
#[global] Instance M_bind : MBind M := fun _ _ k m =>
  match m with
  | (inl e, l) => (inl e, l)
  | (inr a, l) => let '(r, l') := k a in (r, l ++ l')
  end.

Definition lift {A} (r : result A) : M A := (r, []).

(** [int(x)] on a float: truncation towards zero. *)
Definition py_int (x : Q) : Z := Z.quot (Qnum x) (Zpos (Qden x)).

(** [Grainer.grain] of the three built-in classes; the result of any other
    subclass is an opaque node. *)
Definition grain (g : Grainer) (c : VideoNode) (strength : Q * Q) : VideoNode :=
  match g with
  | AddGrain kw =>
      Call "grain.Add" c ([("var", [strength.1]); ("uvar", [strength.2])] ++ kw)
  | PlaceboGrain kw =>
      Call "deband" c ([("threshold", [0]); ("grain", [strength.1; strength.2])] ++ kw)
  | F3kdbGrain kw =>
      Call "dumb3kdb" c
        ([("threshold", [1]);
          ("grain", [inject_Z (py_int strength.1); inject_Z (py_int strength.2)])]
           ++ kw)
  | OtherGrainer cls => Grained cls c strength
  end.

(** A call of the [grain] method, recorded. *)
Definition call_grain (g : Grainer) (c : VideoNode) (strength : Q * Q)
  : M VideoNode :=
  (inr (grain g c strength),
   [{| call_grainer := g; call_clip := c; call_strength := strength |}]).

(** * The Graigasm class *)

Record Graigasm := {
  thrs : list Q;
  strengths : list (Q * Q);
  sizes : list Q;
  sharps : list Q;
  overflows : list Q;
  grainers : list Grainer
}.

(** The [overflows] argument: [None], a float, or a sequence. *)
Inductive overflows_arg :=
| OvfNone
| OvfFloat (v : Q)
| OvfSeq (l : list Q).

(** The [grainers] argument: one grainer, or a sequence. *)
Inductive grainers_arg :=
| GrOne (g : Grainer)
| GrSeq (l : list Grainer).

Definition default_grainers : grainers_arg :=
  GrOne (AddGrain [("seed", [-1]); ("constant", [0])]).

Definition len {A} (l : list A) : Z := Z.of_nat (length l).

(** [l[i]], a negative index counting from the end. *)
Definition py_index {A} (l : list A) (i : Z) : result A :=
  let j := if (i <? 0)%Z then (i + len l)%Z else i in
  if (j <? 0)%Z then raise IndexError
  else match l !! Z.to_nat j with
       | Some x => mret x
       | None => raise IndexError
       end.

(** [[x] * n]: empty when [n] is not positive. *)
Definition py_times {A} (x : A) (n : Z) : list A := replicate (Z.to_nat n) x.

(** [lst += [lst[-1]] * (length - len(lst))] *)
Definition fill_last {A} (l : list A) (length : Z) : result (list A) :=
  x ← py_index l (-1);
  mret (l ++ py_times x (length - len l)).

(** A name between double quotes, as the message below writes the four
    arguments. *)
Definition quoted (s : string) : string :=
  let dquote := Ascii.ascii_of_nat 34 in
  String dquote (s +:+ String dquote EmptyString).

Definition length_error : exn :=
  ValueError ("Graigasm: " +:+ quoted "thrs" +:+ ", " +:+ quoted "strengths"
              +:+ ", " +:+ quoted "sizes" +:+ " and " +:+ quoted "sharps"
              +:+ " must have the same length!").

Definition __init__ (thrs : list Q) (strengths : list (Q * Q))
    (sizes sharps : list Q) (overflows : overflows_arg)
    (grainers : grainers_arg) : result Graigasm :=
  let length := len thrs in
  let datas := [len strengths; len sizes; len sharps] in
  if forallb (fun n => negb (n =? length)%Z) datas then raise length_error
  else
    overflows ← match overflows with
                | OvfNone => v ← truediv 1 (inject_Z length); mret (OvfSeq [v])
                | _ => mret overflows
                end;
    overflows ← match overflows with
                | OvfFloat v => mret (py_times v length)
                | OvfSeq l => fill_last l length
                | OvfNone => mret []          (* not reached *)
                end;
    grainers ← match grainers with
               | GrOne g => mret (py_times g length)
               | GrSeq l => fill_last l length
               end;
    mret {| thrs := thrs; strengths := strengths; sizes := sizes;
            sharps := sharps; overflows := overflows; grainers := grainers |}.

(** [x - x % mod] on integers; [%] takes the sign of the divisor. *)
Definition _m__ (x mod_ : Z) : result Z :=
  if (mod_ =? 0)%Z then raise ZeroDivisionError else mret (x - x mod mod_)%Z.

Definition ss_mod : gmap (Z * Z) Z :=
  list_to_map [((0, 0), 1); ((1, 1), 2); ((1, 0), 2);
               ((0, 1), 2); ((2, 2), 4); ((2, 0), 4)]%Z.

Definition format_unknown : exn := ValueError "Graigasm: Format unknown!".

Definition _get_mod (clip : VideoNode) : result Z :=
  match format clip with
  | None => raise AssertionError
  | Some f =>
      match ss_mod !! (subsampling_w f, subsampling_h f) with
      | Some m => mret m
      | None => raise format_unknown
      end
  end.

(** [std.Lut] with a function: the function is called on every value of the
    clip's integer range when the node is built, and the results are the
    table; an exception of the function ends the construction. *)
Definition std_Lut (c : VideoNode) (function : Q → result Z)
  : result VideoNode :=
  match format c with
  | Some f =>
      match sample_type f with
      | INTEGER =>
          table ← mapM (fun n => function (inject_Z n))
                       (seqZ 0 (2 ^ bits_per_sample f));
          mret (Lut c table)
      | FLOAT => raise (VSError "Lut: only integer samples are supported")
      end
  | None => raise (VSError "Lut: only constant format input is supported")
  end.

(** Modelled from the spec: [util.pick_px_op] is not among the sources.  The
    mask is "rounded to the frame's discrete sample representation when not
    floating-point": the expression is evaluated on floating-point formats,
    and the rounding function is used as a look-up function otherwise. *)
Definition pick_px_op (use_expr : bool)
    (operations : list token * (Q → result Z)) (c : VideoNode)
  : result VideoNode :=
  if use_expr then mret (Expr [c] operations.1)
  else std_Lut c operations.2.

Definition _make_mask (clip : VideoNode) (thr overflow peak : Q)
    (is_float : bool) : result VideoNode :=
  pick_px_op is_float (mask_expr thr overflow peak, _func thr overflow peak)
    clip.

Definition _make_grained (clip : VideoNode) (strength : Q * Q)
    (size sharp : Q) (grainer : Grainer) (neutral : list Q) (mod_ : Z)
  : M VideoNode :=
  w ← lift (truediv (inject_Z (width clip)) size);
  ss_w ← lift (_m__ (py_round w) mod_);
  h ← lift (truediv (inject_Z (height clip)) size);
  ss_h ← lift (_m__ (py_round h) mod_);
  let b := sharp / -(50) + 1 in
  let c := (1 - b) / 2 in
  let blank := BlankClip clip (Some ss_w) (Some ss_h) neutral in
  grained ← call_grain grainer blank strength;
  mret (MakeDiff clip (Bicubic grained (width clip) (height clip) b c)).

(** [types.format_not_none]: the clip must have a fixed format, which the
    callers then read. *)
Definition format_not_none (clip : VideoNode) : result Format :=
  match format clip with
  | None => raise (FormatError "Variable format not allowed!")
  | Some f => mret f
  end.

(** Modelled from the spec: [util.get_sample_type] is not among the sources;
    it is the "sample representation (integer/float)" of the frame. *)
Definition get_sample_type (f : Format) : SampleType := sample_type f.

Definition is_FLOAT (t : SampleType) : bool :=
  match t with FLOAT => true | INTEGER => false end.

(** [a << n] on integers. *)
Definition py_lshift (a n : Z) : result Z :=
  if (n <? 0)%Z then raise (ValueError "negative shift count")
  else mret (Z.shiftl a n).

(** [vsutil.get_plane_size] *)
Definition get_plane_size (clip : VideoNode) (f : Format) (planeno : Z) : Z * Z :=
  if (planeno =? 0)%Z then (width clip, height clip)
  else (Z.shiftr (width clip) (subsampling_w f),
        Z.shiftr (height clip) (subsampling_h f)).

(** ['x y -'] *)
Definition sub_expr : list token := [Tx; Ty; Top OpSub].

(** [[Expr([masks[i], masks[i-1]], 'x y -') for i in range(1, len(masks))]] *)
Definition exclusive_masks (masks : list VideoNode) : result (list VideoNode) :=
  mapM (fun i => x ← py_index masks i;
                 y ← py_index masks (i - 1);
                 mret (Expr [x; y] sub_expr))
       (seqZ 1 (len masks - 1)).

(** [f'x z {peak} / * y 1 z {peak} / - * +'] *)
Definition blend_expr (peak : Q) : list token :=
  [Tx; Tz; Tnum peak; Top OpDiv; Top OpMul;
   Ty; Tnum 1; Tz; Tnum peak; Top OpDiv; Top OpSub; Top OpMul; Top OpAdd].

Definition unsupported_family : exn :=
  FormatError "graining: Only YUV and GRAY format are supported!".

(** The masks of every band, up to the point where [graining] either shows
    them or composites with them. *)
Definition band_masks (self : Graigasm) (clip : VideoNode) (fmt : Format)
    (pref : VideoNode) (peak : Q) (is_float : bool)
  : result (list VideoNode) :=
  masks ← mapM (fun '(thr, ovf) => _make_mask pref thr ovf peak is_float)
               (zip (thrs self) (overflows self));
  let masks := BlankClip pref None None [0] :: masks in
  masks ← exclusive_masks masks;
  if (num_planes fmt =? 3)%Z then
    if is_float then
      let '(w, h) := get_plane_size clip fmt 1 in
      let masks_chroma := (fun mask => Bilinear mask (Some w) (Some h) None) <$> masks in
      mret (zip_with (fun mask mask_chroma => Join [mask; mask_chroma; mask_chroma])
                     masks masks_chroma)
    else
      mret ((fun mask => Bilinear (Join [mask; mask; mask]) None None (Some fmt)) <$> masks)
  else mret masks.

Definition graining (self : Graigasm) (clip : VideoNode)
    (prefilter : option VideoNode) (show_masks : bool) : M VideoNode :=
  fmt ← lift (format_not_none clip);
  match color_family fmt with
  | RGB | YCOCG | COMPAT => lift (raise unsupported_family)
  | YUV | GRAY =>
      let bits := bits_per_sample fmt in
      let is_float := is_FLOAT (get_sample_type fmt) in
      peak ← lift (if is_float then mret 1
                   else n ← py_lshift 1 bits; mret (inject_Z (n - 1)));
      let num_planes := num_planes fmt in
      neutral ← lift (if is_float then mret ([1 # 2] ++ py_times 0 (num_planes - 1))
                      else n ← py_lshift 1 (bits - 1);
                           mret (py_times (inject_Z n) num_planes));
      let pref := match prefilter with Some p => p | None => GetY clip end in
      mod_ ← lift (_get_mod clip);
      masks ← lift (band_masks self clip fmt pref peak is_float);
      if show_masks then
        mret (Interleave
                (zip_with (fun thr mask => FrameNum (Text mask "Threshold: " thr 7) 9)
                          (thrs self) masks))
      else
        graineds ← mapM (fun '(strength, size, sharp, grainer) =>
                           _make_grained clip strength size sharp grainer neutral mod_)
                        (zip (zip (zip (strengths self) (sizes self)) (sharps self))
                             (grainers self));
        let clips_adg :=
          zip_with (fun grained mask => Expr [grained; clip; mask] (blend_expr peak))
                   graineds masks in
        mret (fold_left (fun out clip_adg => MergeDiff clip_adg (MakeDiff clip out))
                        clips_adg clip)
  end.

(** ** Argument validation by [std.BlankClip]

    [std.BlankClip] refuses a width or a height that is not positive, and
    its error ends the call that asked for the clip.  [_make_grained] asks
    for its blank clip immediately before it calls the grainer on it, and
    nothing else in [graining] gives [std.BlankClip] a size.  A run under
    this validation is therefore the run above cut at the first grainer call
    whose clip would have been refused: the calls before it were made, that
    call and everything after it were not, and the error is the plugin's. *)
Definition blank_accepted (c : VideoNode) : bool :=
  match c with
  | BlankClip _ _ _ _ => (0 <? width c)%Z && (0 <? height c)%Z
  | _ => true
  end.

(** The plugin's error; its text is not relied upon. *)
Definition blank_refused : exn := VSError "BlankClip: invalid width or height".

(** The calls made before the first refused blank clip. *)
Fixpoint accepted_calls (calls : list grain_call) : list grain_call :=
  match calls with
  | call :: rest =>
      if blank_accepted (call_clip call) then call :: accepted_calls rest else []
  | [] => []
  end.

Definition validated {A} (m : M A) : M A :=
  if forallb (fun call => blank_accepted (call_clip call)) m.2 then m
  else (inl blank_refused, accepted_calls m.2).

(** * Pixel semantics of the graph *)

Record pixel := { px_frame : nat; px_plane : nat; px_x : Z; px_y : Z }.

(** The sample of a node at a pixel.  [std.Expr], [std.Lut] and
    [std.BlankClip] are computed; the other filters are given by [ext].
    For [std.Expr] this is the value of the expression, before the filter
    stores it in the output format: see [stored_sample] below. *)
Fixpoint sample (ext : VideoNode → pixel → option Q) (c : VideoNode) (p : pixel)
  : option Q :=
  match c with
  | Expr cs e => mapM (fun c => sample ext c p) cs ≫= expr_px e
  | Lut c table =>
      x ← sample ext c p;
      if Qle_bool 0 x then inject_Z <$> table !! Z.to_nat (Qfloor x) else None
  | BlankClip _ _ _ color => color !! px_plane p
  | _ => ext c p
  end.

(** ** What [std.Expr] stores

    On an integer output format [std.Expr] rounds the value of the
    expression and clamps it to [0, 2^bits - 1]; a float format keeps the
    value.  The rounding [rnd] is left open: the statements below only need
    that it keeps the integers. *)
Definition store (rnd : Q → Z) (fmt : option Format) (v : Q) : Q :=
  match fmt with
  | Some f =>
      match sample_type f with
      | INTEGER => inject_Z (Z.max 0 (Z.min (2 ^ bits_per_sample f - 1) (rnd v)))
      | FLOAT => v
      end
  | None => v
  end.

(** The sample of a node at a pixel, with the store of [std.Expr]. *)
Fixpoint stored_sample (rnd : Q → Z) (ext : VideoNode → pixel → option Q)
    (c : VideoNode) (p : pixel) : option Q :=
  match c with
  | Expr cs e =>
      store rnd (format c) <$> (mapM (fun c => stored_sample rnd ext c p) cs ≫= expr_px e)
  | Lut c table =>
      x ← stored_sample rnd ext c p;
      if Qle_bool 0 x then inject_Z <$> table !! Z.to_nat (Qfloor x) else None
  | BlankClip _ _ _ color => color !! px_plane p
  | _ => ext c p
  end.

(** * Notions used in the statements *)

(** The linear ramp of the transition zone. *)
Definition ramp (thr overflow peak x : Q) : Q :=
  let min_thr := thr - (overflow * peak) / 2 in
  let max_thr := thr + (overflow * peak) / 2 in
  Qabs ((x - min_thr) / (max_thr - min_thr) * peak - peak).

Definition quantize (is_float : bool) (v : Q) : Q :=
  if is_float then v else inject_Z (py_round v).

(** The sample [o] is defined and equals [v]. *)
Definition yields (o : option Q) (v : Q) : Prop := ∃ w, o = Some w ∧ w == v.

(** The peak, the neutral colour and the reference clip that [graining]
    derives from its arguments. *)
Definition peak_of (fmt : Format) : Q :=
  if is_FLOAT (sample_type fmt) then 1
  else inject_Z (2 ^ bits_per_sample fmt - 1).

Definition neutral_of (fmt : Format) : list Q :=
  if is_FLOAT (sample_type fmt)
  then (1 # 2) :: replicate (Z.to_nat (num_planes fmt - 1)) 0
  else replicate (Z.to_nat (num_planes fmt))
                 (inject_Z (2 ^ (bits_per_sample fmt - 1))).

Definition reference (clip : VideoNode) (prefilter : option VideoNode) : VideoNode :=
  match prefilter with Some p => p | None => GetY clip end.

Definition Qsum (l : list Q) : Q := foldr Qplus 0 l.

(** The sample of a node under construction, when the construction
    succeeds. *)
Definition sample_built (ext : VideoNode → pixel → option Q)
    (r : result VideoNode) (p : pixel) : option Q :=
  match r with
  | inr c => sample ext c p
  | inl _ => None
  end.

(** The value [v] can be stored in the format as it is: any value on a
    float format, an integer of the range on an integer format. *)
Definition storable (fmt : option Format) (v : Q) : Prop :=
  match fmt with
  | Some f =>
      match sample_type f with
      | INTEGER => ∃ z : Z, v == inject_Z z ∧ (0 ≤ z ≤ 2 ^ bits_per_sample f - 1)%Z
      | FLOAT => True
      end
  | None => True
  end.

(** * Example inputs *)

Definition gray8 : Format :=
  {| color_family := GRAY; sample_type := INTEGER; bits_per_sample := 8;
     subsampling_w := 0; subsampling_h := 0; num_planes := 1 |}.

Definition grayS : Format :=
  {| color_family := GRAY; sample_type := FLOAT; bits_per_sample := 32;
     subsampling_w := 0; subsampling_h := 0; num_planes := 1 |}.

Definition yuv420p8 : Format :=
  {| color_family := YUV; sample_type := INTEGER; bits_per_sample := 8;
     subsampling_w := 1; subsampling_h := 1; num_planes := 3 |}.

(** A subsampling pair outside the table. *)
Definition yuv411ish : Format :=
  {| color_family := YUV; sample_type := INTEGER; bits_per_sample := 8;
     subsampling_w := 3; subsampling_h := 0; num_planes := 3 |}.

Definition hd (f : Format) : VideoNode :=
  Source "clip" {| vi_format := Some f; vi_width := 1920; vi_height := 1080 |}.

Definition origin : pixel := {| px_frame := 0; px_plane := 0; px_x := 0; px_y := 0 |}.

(** Every input sample is [v]. *)
Definition flat (v : Q) : VideoNode → pixel → option Q := fun _ _ => Some v.

Definition mask_128_half : VideoNode :=
  Eval vm_compute in
    match _make_mask (hd gray8) 128 (1 # 2) 255 false with
    | inr m => m
    | inl _ => hd gray8
    end.

Definition spy : Grainer := OtherGrainer "spy".

Definition coarse_band : Graigasm :=
  {| thrs := [128]; strengths := [(10, 0)]; sizes := [5000]; sharps := [50];
     overflows := [1 # 2]; grainers := [spy] |}.

Definition two_bands : Graigasm :=
  {| thrs := [1 # 4; 3 # 4]; strengths := [(10, 0); (5, 0)]; sizes := [1; 2];
     sharps := [50; 60]; overflows := [1 # 10; 1 # 10]; grainers := [spy; spy] |}.

Definition two_band_masks : list VideoNode :=
  Eval vm_compute in
    match band_masks two_bands (hd grayS) grayS (GetY (hd grayS)) 1 true with
    | inr l => l
    | inl _ => []
    end.

Definition two_band_graineds : list VideoNode * list grain_call :=
  Eval vm_compute in
    match mapM (fun '(strength, size, sharp, grainer) =>
                  _make_grained (hd grayS) strength size sharp grainer
                                (neutral_of grayS) 1)
               (zip (zip (zip (strengths two_bands) (sizes two_bands))
                         (sharps two_bands)) (grainers two_bands)) with
    | (inr l, calls) => (l, calls)
    | (inl _, calls) => ([], calls)
    end.

(** The cumulative masks of two 8-bit bands, with the thresholds in
    ascending and in descending order. *)
Definition ascending_masks : list VideoNode :=
  Eval vm_compute in
    match mapM (fun '(thr, ovf) => _make_mask (GetY (hd gray8)) thr ovf 255 false)
               [(64, 1 # 10); (192, 1 # 10)] with
    | inr l => l
    | inl _ => []
    end.

Definition descending_masks : list VideoNode :=
  Eval vm_compute in
    match mapM (fun '(thr, ovf) => _make_mask (GetY (hd gray8)) thr ovf 255 false)
               [(192, 1 # 10); (64, 1 # 10)] with
    | inr l => l
    | inl _ => []
    end.

(** The down-sampled width or height of a band: [_m__(round(n / size), mod)]
    for a non-zero size and modulus. *)
Definition down_size (n : Z) (size : Q) (mod_ : Z) : Z :=
  let x := py_round (inject_Z n / size) in (x - x mod mod_)%Z.

(** The call of its grainer that a band makes on [clip]. *)
Definition band_call (clip : VideoNode) (neutral : list Q) (mod_ : Z)
    (band : Q * Q * Q * Q * Grainer) : grain_call :=
  let '(strength, size, sharp, grainer) := band in
  {| call_grainer := grainer;
     call_clip := BlankClip clip (Some (down_size (width clip) size mod_))
                            (Some (down_size (height clip) size mod_)) neutral;
     call_strength := strength |}.

Definition rgb24 : Format :=
  {| color_family := RGB; sample_type := INTEGER; bits_per_sample := 8;
     subsampling_w := 0; subsampling_h := 0; num_planes := 3 |}.

Definition variable_clip : VideoNode :=
  Source "clip" {| vi_format := None; vi_width := 0; vi_height := 0 |}.

Definition no_band : Graigasm :=
  {| thrs := []; strengths := []; sizes := []; sharps := [];
     overflows := []; grainers := [] |}.

(** The bands that [graining] synthesises grain for. *)
Definition bands_of (self : Graigasm) : list (Q * Q * Q * Q * Grainer) :=
  zip (zip (zip (strengths self) (sizes self)) (sharps self)) (grainers self).



(** * Other parts of the package

    Filters with several inputs that the graph type has no node for are
    taken as parameters of the functions that call them. *)

(** ** noise.adaptative_regrain *)

(** [max] and [min] of a pair: the first element unless the second is
    strictly beyond it. *)
Definition py_max2 (a b : Q) : Q := if Qltb a b then b else a.
Definition py_min2 (a b : Q) : Q := if Qltb b a then b else a.

(** The inner function [_diff]; [psa] is the frame property
    [PlaneStatsAverage]. *)
Definition _diff (Merge : VideoNode → VideoNode → list Q → VideoNode)
    (psa avg_max avg_min : Q) (new adapt : VideoNode) : result VideoNode :=
  if Qltb avg_max psa then mret new
  else if Qltb psa avg_min then mret adapt
  else
    weight ← truediv (psa - avg_min) (avg_max - avg_min);
    mret (Merge adapt new [weight]).

Definition adaptative_regrain
    (MaskedMerge : VideoNode → VideoNode → VideoNode → VideoNode)
    (Merge : VideoNode → VideoNode → list Q → VideoNode)
    (FrameEval : VideoNode → (Q → result VideoNode) → list VideoNode → VideoNode)
    (denoised new_grained original_grained : VideoNode)
    (range_avg : Q * Q) (luma_scaling : Z) : VideoNode :=
  let avg := Call "std.PlaneStats" denoised [] in
  let adapt_mask :=
    Call "adg.Mask" (GetY avg) [("luma_scaling", [inject_Z luma_scaling])] in
  let adapt_grained := MaskedMerge new_grained original_grained adapt_mask in
  let avg_max := py_max2 range_avg.1 range_avg.2 in
  let avg_min := py_min2 range_avg.1 range_avg.2 in
  let diff_function :=
    fun psa => _diff Merge psa avg_max avg_min new_grained adapt_grained in
  FrameEval denoised diff_function [avg].

(** ** aa.upscaled_sraa *)

Definition variable_format : exn :=
  ValueError "upscaled_sraa: 'Variable-format clips not supported'".

(** [if not v: v = d] on an optional integer: [None] and [0] are replaced. *)
Definition or_default (v : option Z) (d : Z) : Z :=
  match v with
  | Some n => if (n =? 0)%Z then d else n
  | None => d
  end.

(** The super-sampler, the single-rater and the down-scaler are callables;
    [get_w] is [vsutil.get_w] with its default aspect ratio. *)
Definition upscaled_sraa (get_w : Z → Z) (clip : VideoNode) (rfactor : Q)
    (width_ height_ : option Z)
    (supersampler : VideoNode → Z → Z → VideoNode)
    (downscaler : option (VideoNode → Z → Z → VideoNode))
    (singlerater : VideoNode → VideoNode) : result VideoNode :=
  match format clip with
  | None => raise variable_format
  | Some _ =>
      let ssw := py_round (inject_Z (width clip) * rfactor) in
      let ssw := Z.land (ssw + 1) (Z.lnot 1) in
      let ssh := py_round (inject_Z (height clip) * rfactor) in
      let ssh := Z.land (ssh + 1) (Z.lnot 1) in
      let height_ := or_default height_ (height clip) in
      let width_ := or_default width_ (get_w height_) in
      let upscale := supersampler clip ssw ssh in
      let singlerate := singlerater upscale in
      mret (match downscaler with
            | Some scale => scale singlerate width_ height_
            | None => singlerate
            end)
  end.

(** ** types.DuplicateFrame *)

Module DuplicateFrame.

(** An integer (the frame number [x]) carrying a repetition count. *)
Record t := { x : Z; dup : Z }.

Definition __new__ (x : Z) (dup : option Z) : t :=
  {| x := x; dup := default 1%Z dup |}.

Definition __add__ (self : t) (n : Z) : t :=
  __new__ (x self) (Some (dup self + n)%Z).

Definition __sub__ (self : t) (n : Z) : t :=
  __new__ (x self) (Some (dup self - n)%Z).

Definition __mul__ (self : t) (n : Z) : t :=
  __new__ (x self) (Some (dup self * n)%Z).

(** [//] rounds towards minus infinity and raises on a zero divisor. *)
Definition __floordiv__ (self : t) (n : Z) : result t :=
  if (n =? 0)%Z then raise ZeroDivisionError
  else mret (__new__ (x self) (Some (dup self / n)%Z)).

End DuplicateFrame.

(** Stand-ins for the filters taken as parameters, for the examples. *)
Definition merge_node (a b : VideoNode) (weight : list Q) : VideoNode :=
  Call "std.Merge" (Join [a; b]) [("weight", weight)].

Definition masked_merge_node (a b mask : VideoNode) : VideoNode :=
  Call "std.MaskedMerge" (Join [a; b; mask]) [].

Definition frame_eval_node (c : VideoNode) (f : Q → result VideoNode)
    (prop_src : list VideoNode) : VideoNode :=
  Call "std.FrameEval" (Join (c :: prop_src)) [].

Definition resize_node (fn : string) (c : VideoNode) (w h : Z) : VideoNode :=
  Call fn c [("width", [inject_Z w]); ("height", [inject_Z h])].

(** * Properties *)

Lemma Qltb_lt (a b : Q) : Qltb a b = true ↔ a < b.
Proof.
  unfold Qltb. rewrite negb_true_iff, <- not_true_iff_false, Qle_bool_iff.
  split; [apply Qnot_le_lt | apply Qlt_not_le].
Qed.

Lemma Qltb_ge (a b : Q) : Qltb a b = false ↔ b <= a.
Proof.
  unfold Qltb. rewrite negb_false_iff. apply Qle_bool_iff.
Qed.

Lemma Qle_bool_gt (a b : Q) : Qle_bool a b = false ↔ b < a.
Proof.
  rewrite <- not_true_iff_false, Qle_bool_iff.
  split; [apply Qnot_le_lt | apply Qlt_not_le].
Qed.

Lemma Qeq_bool_false (a b : Q) : ¬ a == b → Qeq_bool a b = false.
Proof.
  intros H. apply not_true_iff_false. intros E. apply H, Qeq_bool_iff, E.
Qed.

#[global] Instance py_round_proper : Proper (Qeq ==> eq) py_round.
Proof.
  intros x y E. unfold py_round. rewrite (Qfloor_comp _ _ E).
  assert (E' : x - inject_Z (Qfloor y) == y - inject_Z (Qfloor y)) by (rewrite E; reflexivity).
  rewrite (Qcompare_comp _ _ E' (1#2) (1#2)); reflexivity.
Qed.

Lemma py_round_Z (z : Z) : py_round (inject_Z z) = z.
Proof.
  unfold py_round. rewrite Qfloor_Z.
  assert (H : inject_Z z - inject_Z z < 1 # 2)
    by (setoid_replace (inject_Z z - inject_Z z) with 0%Q using relation Qeq by ring; reflexivity).
  destruct (Qcompare_spec (inject_Z z - inject_Z z) (1 # 2)) as [E|E|E]; [|done|].
  - rewrite E in H. by apply Qlt_irrefl in H.
  - destruct (Qlt_not_le _ _ E). by apply Qlt_le_weak.
Qed.

(** ** The mask policy on one sample *)

Section MaskPolicy.
Variables thr overflow peak : Q.

Let min_thr : Q := thr - (overflow * peak) / 2.
Let max_thr : Q := thr + (overflow * peak) / 2.

Lemma eval_min_thr e x s :
  eval_rpn (min_thr_expr thr overflow peak ++ e) [x] s
  = eval_rpn e [x] (Some min_thr :: s).
Proof. reflexivity. Qed.

Lemma eval_max_thr e x s :
  eval_rpn (max_thr_expr thr overflow peak ++ e) [x] s
  = eval_rpn e [x] (Some max_thr :: s).
Proof. reflexivity. Qed.

Lemma Qltb_of_bool b : Qltb 0 (of_bool b) = b.
Proof. by destruct b. Qed.

(** The placeholder replacements leave one nested conditional. *)
Lemma mask_expr_eval x :
  eval_rpn (mask_expr thr overflow peak) [x] [] =
  Some (if Qle_bool min_thr x && Qle_bool x max_thr
        then if Qeq_bool (max_thr - min_thr) 0 then None
             else Some (Qabs ((x - min_thr) / (max_thr - min_thr) * peak - peak))
        else if Qltb x min_thr then Some peak
        else if Qltb max_thr x then Some 0
        else Some x).
Proof.
  cbv - [Qplus Qminus Qmult Qdiv Qabs Qle_bool Qeq_bool Qltb of_bool
          min_thr max_thr andb].
  change (Qeq_bool 2 0) with false. cbv beta iota.
  fold min_thr max_thr. rewrite !Qltb_of_bool.
  destruct (Qle_bool min_thr x), (Qle_bool x max_thr); cbn [andb];
    rewrite ?Qltb_of_bool;
    repeat match goal with |- context [if ?b then _ else _] => destruct b end;
    reflexivity.
Qed.

Lemma func_below x : x < min_thr → _func thr overflow peak x = inr (py_round peak).
Proof.
  intros H. unfold _func. fold min_thr max_thr.
  rewrite (proj2 (Qle_bool_gt min_thr x) H), (proj2 (Qltb_lt x min_thr) H).
  reflexivity.
Qed.

Lemma func_above x :
  min_thr <= x → max_thr < x → _func thr overflow peak x = inr 0%Z.
Proof.
  intros H1 H2. unfold _func. fold min_thr max_thr.
  rewrite (proj2 (Qle_bool_iff min_thr x) H1), (proj2 (Qle_bool_gt x max_thr) H2),
    (proj2 (Qltb_ge x min_thr) H1), (proj2 (Qltb_lt max_thr x) H2).
  reflexivity.
Qed.

Lemma func_ramp x :
  min_thr <= x → x <= max_thr → min_thr < max_thr →
  _func thr overflow peak x = inr (py_round (ramp thr overflow peak x)).
Proof.
  intros H1 H2 H3. unfold _func, truediv. fold min_thr max_thr.
  rewrite (proj2 (Qle_bool_iff min_thr x) H1), (proj2 (Qle_bool_iff x max_thr) H2).
  rewrite Qeq_bool_false; [reflexivity|]. intros E. lra.
Qed.

Lemma expr_below x :
  x < min_thr → expr_px (mask_expr thr overflow peak) [x] = Some peak.
Proof.
  intros H. unfold expr_px. rewrite mask_expr_eval.
  rewrite (proj2 (Qle_bool_gt min_thr x) H), (proj2 (Qltb_lt x min_thr) H).
  reflexivity.
Qed.

Lemma expr_above x :
  min_thr <= x → max_thr < x → expr_px (mask_expr thr overflow peak) [x] = Some 0.
Proof.
  intros H1 H2. unfold expr_px. rewrite mask_expr_eval.
  rewrite (proj2 (Qle_bool_iff min_thr x) H1), (proj2 (Qle_bool_gt x max_thr) H2),
    (proj2 (Qltb_ge x min_thr) H1), (proj2 (Qltb_lt max_thr x) H2).
  reflexivity.
Qed.

Lemma expr_ramp x :
  min_thr <= x → x <= max_thr → min_thr < max_thr →
  expr_px (mask_expr thr overflow peak) [x] = Some (ramp thr overflow peak x).
Proof.
  intros H1 H2 H3. unfold expr_px. rewrite mask_expr_eval.
  rewrite (proj2 (Qle_bool_iff min_thr x) H1), (proj2 (Qle_bool_iff x max_thr) H2).
  cbn [andb]. rewrite Qeq_bool_false; [reflexivity|]. intros E. lra.
Qed.

(** A sample equal to both bounds of an empty transition zone divides
    zero by zero. *)
Lemma func_degenerate x :
  min_thr == max_thr → x == min_thr →
  _func thr overflow peak x = inl ZeroDivisionError.
Proof.
  intros H1 H2. unfold _func, truediv. fold min_thr max_thr.
  rewrite (proj2 (Qle_bool_iff min_thr x)), (proj2 (Qle_bool_iff x max_thr));
    [|lra..].
  cbn [andb]. rewrite (proj2 (Qeq_bool_iff (max_thr - min_thr) 0)); [reflexivity|lra].
Qed.
End MaskPolicy.

(** ** Computations in the two monads *)

Lemma lift_bind {A B} (r : result A) (k : A → M B) :
  lift r ≫= k = match r with inl e => (inl e, []) | inr a => k a end.
Proof. destruct r as [e|a]; cbn; [done|]. by destruct (k a). Qed.

Lemma mapM_result_Forall2 {A B} (f : A → result B) (l : list A) (k : list B) :
  mapM f l = inr k ↔ Forall2 (fun x y => f x = inr y) l k.
Proof.
  revert k. induction l as [|x l IH]; intros k.
  - split; [intros [= <-]; constructor | by inversion 1].
  - change (mapM f (x :: l)) with (y ← f x; k ← mapM f l; mret (y :: k)).
    split.
    + destruct (f x) as [e|y] eqn:Ef; [done|].
      destruct (mapM f l) as [e|k'] eqn:Em; [done|].
      intros [= <-]. constructor; [done | by apply IH].
    + intros H. inversion H as [|? y ? k' Hy Hk]; subst.
      apply IH in Hk. by rewrite Hy, Hk.
Qed.

Lemma func_proper thr overflow peak x y :
  x == y → _func thr overflow peak x = _func thr overflow peak y.
Proof.
  intros E. unfold _func, truediv, Qltb. cbv zeta.
  set (min_thr := thr - overflow * peak / 2).
  set (max_thr := thr + overflow * peak / 2).
  rewrite (Qleb_comp min_thr min_thr (Qeq_refl _) x y E).
  rewrite (Qleb_comp x y E max_thr max_thr (Qeq_refl _)).
  repeat match goal with |- context [if ?b then _ else _] => destruct b end;
    cbn [mbind mret result_bind result_ret raise];
    try reflexivity; f_equal; apply py_round_proper; by rewrite E.
Qed.

(** What the node built by [_make_mask] computes on a reference sample. *)
Lemma make_mask_sample ext clip thr overflow peak is_float mask p x :
  _make_mask clip thr overflow peak is_float = inr mask →
  sample ext clip p = Some x →
  (is_float = false →
   ∀ f, format clip = Some f →
        ∃ n, x == inject_Z n ∧ (0 ≤ n < 2 ^ bits_per_sample f)%Z) →
  sample ext mask p =
    if is_float then expr_px (mask_expr thr overflow peak) [x]
    else match _func thr overflow peak x with
         | inr v => Some (inject_Z v)
         | inl _ => None
         end.
Proof.
  unfold _make_mask, pick_px_op. destruct is_float; cbn [fst snd].
  - intros [= <-] Hx _. cbn. by rewrite Hx.
  - unfold std_Lut. destruct (format clip) as [f|] eqn:Hf; [|done].
    destruct (sample_type f); [|done].
    destruct (mapM _ _) as [e|table] eqn:Ht; [done|].
    intros [= <-] Hx Hint. destruct (Hint eq_refl f eq_refl) as (n & En & Hn).
    cbn. rewrite Hx. cbn.
    apply mapM_result_Forall2 in Ht.
    rewrite (proj2 (Qle_bool_iff 0 x)) by (rewrite En; change (inject_Z 0 <= inject_Z n); rewrite <- Zle_Qle; lia).
    rewrite (Qfloor_comp _ _ En), Qfloor_Z, (func_proper _ _ _ _ _ En).
    assert (Hl : seqZ 0 (2 ^ bits_per_sample f) !! Z.to_nat n = Some n).
    { apply lookup_seqZ. lia. }
    destruct (Forall2_lookup_l _ _ _ _ _ Ht Hl) as (v & -> & ->). done.
Qed.

(** Outside the degenerate zone the look-up function returns on every
    sample, hence the mask of an integer clip can be built; the expression
    mask can always be built. *)
Lemma func_total thr overflow peak x :
  ¬ overflow * peak == 0 → ∃ v, _func thr overflow peak x = inr v.
Proof.
  intros H. unfold _func, truediv. cbv zeta.
  destruct (_ && _); [|repeat case_match; by eexists].
  rewrite Qeq_bool_false; [by eexists|]. intros E. apply H.
  setoid_replace (overflow * peak)
    with (thr + overflow * peak / 2 - (thr - overflow * peak / 2))
    using relation Qeq by field.
  exact E.
Qed.

Lemma mapM_result_total {A B} (f : A → result B) (l : list A) :
  (∀ x, ∃ y, f x = inr y) → ∃ k, mapM f l = inr k.
Proof.
  intros H. induction l as [|x l [k IH]]; [by eexists|].
  destruct (H x) as [y Hy].
  change (mapM f (x :: l)) with (y ← f x; k ← mapM f l; mret (y :: k)).
  rewrite Hy, IH. by eexists.
Qed.

Lemma make_mask_total clip thr overflow peak is_float :
  (is_float = false →
   ¬ overflow * peak == 0 ∧ ∃ f, format clip = Some f ∧ sample_type f = INTEGER) →
  ∃ mask, _make_mask clip thr overflow peak is_float = inr mask.
Proof.
  unfold _make_mask, pick_px_op. destruct is_float; [by eexists|].
  intros H. destruct (H eq_refl) as (Hz & f & Hf & Hs).
  unfold std_Lut. rewrite Hf, Hs. cbn [fst snd].
  destruct (mapM_result_total (fun n => _func thr overflow peak (inject_Z n))
              (seqZ 0 (2 ^ bits_per_sample f))) as [k Hk].
  - intros n. by apply func_total.
  - rewrite Hk. by eexists.
Qed.

(** ** The mask of one band *)

(** C1: the mask built by [_make_mask] is [peak] below [min_thr], [0] above
    [max_thr] for a sample that is not below [min_thr], and the linear ramp
    inside a non-empty transition zone; on integer formats the value is
    rounded. *)
Theorem make_mask_policy ext clip thr overflow peak is_float mask p x :
  _make_mask clip thr overflow peak is_float = inr mask →
  sample ext clip p = Some x →
  (is_float = false →
   ∀ f, format clip = Some f →
        ∃ n, x == inject_Z n ∧ (0 ≤ n < 2 ^ bits_per_sample f)%Z) →
  let min_thr := thr - overflow * peak / 2 in
  let max_thr := thr + overflow * peak / 2 in
  (x < min_thr → yields (sample ext mask p) (quantize is_float peak)) ∧
  (min_thr <= x → max_thr < x → yields (sample ext mask p) 0) ∧
  (min_thr <= x → x <= max_thr → min_thr < max_thr →
   yields (sample ext mask p)
     (quantize is_float
        (Qabs ((x - min_thr) / (max_thr - min_thr) * peak - peak)))).
Proof.
  intros Hm Hx Hint min_thr max_thr.
  rewrite (make_mask_sample _ _ _ _ _ _ _ _ _ Hm Hx Hint).
  destruct is_float; cbn [quantize]; repeat split.
  - intros H. rewrite expr_below by done. by exists peak.
  - intros H1 H2. rewrite expr_above by done. by exists 0.
  - intros H1 H2 H3. rewrite expr_ramp by done. by eexists.
  - intros H. rewrite func_below by done. by eexists.
  - intros H1 H2. rewrite func_above by done. by exists (inject_Z 0).
  - intros H1 H2 H3. rewrite func_ramp by done. by eexists.
Qed.

Lemma make_mask_policy_witness :
  yields (sample (flat 32) mask_128_half origin) 255 ∧
  yields (sample (flat 200) mask_128_half origin) 0 ∧
  yields (sample (flat 100) mask_128_half origin) 184.
Proof.
  split; [|split].
  - refine (proj1 (make_mask_policy (flat 32) (hd gray8) 128 (1 # 2) 255 false
                     mask_128_half origin 32 _ _ _) _).
    + vm_compute; reflexivity.
    + reflexivity.
    + intros _ f [= <-]. exists 32%Z. split; [reflexivity | vm_compute; by split].
    + reflexivity.
  - refine (proj1 (proj2 (make_mask_policy (flat 200) (hd gray8) 128 (1 # 2) 255
                            false mask_128_half origin 200 _ _ _)) _ _).
    + vm_compute; reflexivity.
    + reflexivity.
    + intros _ f [= <-]. exists 200%Z. split; [reflexivity | vm_compute; by split].
    + vm_compute; discriminate.
    + reflexivity.
  - refine (proj2 (proj2 (make_mask_policy (flat 100) (hd gray8) 128 (1 # 2) 255
                            false mask_128_half origin 100 _ _ _)) _ _ _).
    + vm_compute; reflexivity.
    + reflexivity.
    + intros _ f [= <-]. exists 100%Z. split; [reflexivity | vm_compute; by split].
    + vm_compute; discriminate.
    + vm_compute; discriminate.
    + reflexivity.
Defined.

(** C1 as stated fails for a negative overflow: [max_thr] is then below
    [min_thr], a sample between them is above [max_thr], and the mask is
    [peak] there, on both kinds of format. *)
Lemma make_mask_policy_counterexample :
  let thr := 128 in
  let overflow := - (1 # 2) in
  let peak := 255 in
  let x := 128 in
  thr + overflow * peak / 2 < x ∧
  sample_built (flat x) (_make_mask (hd gray8) thr overflow peak false) origin
    = Some 255 ∧
  sample_built (flat x) (_make_mask (hd grayS) thr overflow peak true) origin
    = Some 255 ∧
  ¬ 255 == 0.
Proof. vm_compute. repeat split; discriminate. Qed.

(** C5: with [overflow = 0] the look-up function raises on the sample equal
    to the threshold, whatever the threshold and the peak. *)
Theorem func_zero_overflow_boundary (thr peak : Q) :
  _func thr 0 peak thr = inl ZeroDivisionError.
Proof. apply func_degenerate; unfold Qdiv; ring. Qed.

(** Building the mask of an 8-bit clip fails for that reason. *)
Example make_mask_zero_overflow :
  _make_mask (hd gray8) 128 0 255 false = inl ZeroDivisionError.
Proof. vm_compute. reflexivity. Qed.

(** ** Construction *)

(** C4: the length check raises only when all three sequences differ in
    length from [thrs]; here [sizes] alone is too short and the object is
    built. *)
Theorem init_accepts_length_mismatch :
  __init__ [64; 192] [(10, 0); (5, 0)] [1] [50; 50] OvfNone default_grainers
  = inr {| thrs := [64; 192]; strengths := [(10, 0); (5, 0)]; sizes := [1];
           sharps := [50; 50]; overflows := [1 / 2; 1 / 2];
           grainers := [AddGrain [("seed", [-1]); ("constant", [0])];
                        AddGrain [("seed", [-1]); ("constant", [0])]] |}.
Proof. reflexivity. Qed.

(** The check lets every input through in which one of the three lengths
    agrees with that of [thrs]: construction then fails, if at all, in the
    normalisation of [overflows] and [grainers]. *)
Lemma length_check_lenient {A B C D} (thrs : list A) (strengths : list B)
    (sizes : list C) (sharps : list D) :
  length strengths = length thrs ∨ length sizes = length thrs
    ∨ length sharps = length thrs →
  forallb (fun n => negb (n =? len thrs)%Z)
          [len strengths; len sizes; len sharps] = false.
Proof.
  unfold len. cbn. rewrite andb_true_r.
  intros [H|[H|H]]; rewrite H, Z.eqb_refl; cbn; by rewrite ?andb_false_r.
Qed.

Lemma py_index_error {A} (l : list A) i e : py_index l i = inl e → e = IndexError.
Proof. unfold py_index. repeat case_match; by intros [= <-]. Qed.

Lemma fill_last_error {A} (l : list A) n e : fill_last l n = inl e → e = IndexError.
Proof.
  unfold fill_last. destruct (py_index l (-1)) eqn:E; [|done].
  intros [= <-]. by eapply py_index_error.
Qed.

Lemma init_length_check_lenient thrs strengths sizes sharps ovf grn e :
  length strengths = length thrs ∨ length sizes = length thrs
    ∨ length sharps = length thrs →
  __init__ thrs strengths sizes sharps ovf grn = inl e →
  e = ZeroDivisionError ∨ e = IndexError.
Proof.
  intros H. unfold __init__. rewrite (length_check_lenient _ _ _ _ H).
  destruct ovf as [|v|l]; cbn [mbind mret result_bind result_ret].
  - unfold truediv. destruct (Qeq_bool _ _); [intros [= <-]; by left|].
    cbn [mbind mret result_bind result_ret].
    destruct (fill_last [_] _) eqn:E1; [intros [= <-]; right; by eapply fill_last_error|].
    destruct grn as [g|gs]; [done|].
    destruct (fill_last gs _) eqn:E2; [intros [= <-]; right; by eapply fill_last_error|done].
  - destruct grn as [g|gs]; [done|].
    destruct (fill_last gs _) eqn:E2; [intros [= <-]; right; by eapply fill_last_error|done].
  - destruct (fill_last l _) eqn:E1; [intros [= <-]; right; by eapply fill_last_error|].
    destruct grn as [g|gs]; [done|].
    destruct (fill_last gs _) eqn:E2; [intros [= <-]; right; by eapply fill_last_error|done].
Qed.

(** C10: with no band and no [overflows], the length check lets the empty
    lists through and the default overflow [1/len(thrs)] divides by zero. *)
Theorem init_empty_bands (grn : grainers_arg) :
  forallb (fun n => negb (n =? len (@nil Q))%Z)
          [len (@nil (Q * Q)); len (@nil Q); len (@nil Q)] = false ∧
  __init__ [] [] [] [] OvfNone grn = inl ZeroDivisionError.
Proof. split; reflexivity. Qed.






(** ** The chroma modulus and the down-sampled size *)

Lemma get_mod_nonzero clip m : _get_mod clip = inr m → m ≠ 0%Z.
Proof.
  unfold _get_mod. destruct (format clip) as [f|]; [|done].
  destruct (ss_mod !! _) as [m'|] eqn:E; [|done]. intros [= <-].
  apply (elem_of_list_to_map_2 (M:=gmap (Z * Z))) in E.
  set_unfold in E. intros ->. intuition congruence.
Qed.

(** What [_make_grained] does for a non-zero size and modulus: one blank
    clip of the down-sampled size, one call of the grainer on it. *)
Lemma make_grained_run clip strength size sharp grainer neutral m :
  ¬ size == 0 → m ≠ 0%Z →
  let ss_w := (let x := py_round (inject_Z (width clip) / size) in x - x mod m)%Z in
  let ss_h := (let x := py_round (inject_Z (height clip) / size) in x - x mod m)%Z in
  let blank := BlankClip clip (Some ss_w) (Some ss_h) neutral in
  _make_grained clip strength size sharp grainer neutral m
  = (inr (MakeDiff clip
            (Bicubic (grain grainer blank strength) (width clip) (height clip)
               (sharp / -(50) + 1) ((1 - (sharp / -(50) + 1)) / 2))),
     [{| call_grainer := grainer; call_clip := blank; call_strength := strength |}]).
Proof.
  intros Hs Hm. unfold _make_grained, truediv, _m__.
  rewrite (Qeq_bool_false _ _ Hs), (proj2 (Z.eqb_neq m 0) Hm). reflexivity.
Qed.

(** C6: the modulus table, the error outside it, which ends [graining], and
    the down-sampled dimensions of [_make_grained] as multiples of the
    modulus. *)
Theorem chroma_modulus clip f :
  format clip = Some f →
  _get_mod clip =
    match subsampling_w f, subsampling_h f with
    | 0, 0 => inr 1
    | 1, 0 | 0, 1 | 1, 1 => inr 2
    | 2, 0 | 2, 2 => inr 4
    | _, _ => inl format_unknown
    end%Z ∧
  (∀ self prefilter show_masks,
     color_family f = YUV ∨ color_family f = GRAY →
     (1 ≤ bits_per_sample f)%Z →
     _get_mod clip = inl format_unknown →
     graining self clip prefilter show_masks = (inl format_unknown, [])) ∧
  ∀ m strength size sharp grainer neutral,
    _get_mod clip = inr m → ¬ size == 0 →
    ∃ out blank,
      _make_grained clip strength size sharp grainer neutral m
      = (inr out, [{| call_grainer := grainer; call_clip := blank;
                      call_strength := strength |}]) ∧
      (width blank mod m = 0)%Z ∧ (height blank mod m = 0)%Z.
Proof.
  intros Hf. split; [|split].
  2:{ intros self prefilter show_masks Hc Hb Hm.
      unfold graining, format_not_none. rewrite Hf, lift_bind. cbn [mret result_ret].
      destruct Hc as [Hc|Hc]; rewrite Hc; cbv iota.
      all: unfold get_sample_type, py_lshift.
      all: replace (bits_per_sample f <? 0)%Z with false by lia.
      all: replace (bits_per_sample f - 1 <? 0)%Z with false by lia.
      all: destruct (is_FLOAT (sample_type f)); cbn [mbind mret result_bind result_ret].
      all: do 2 (rewrite lift_bind; cbn [mbind mret result_bind result_ret]).
      all: by rewrite Hm, lift_bind. }
  - unfold _get_mod. rewrite Hf.
    destruct (subsampling_w f) as [|[p|[p|p|]|]|p], (subsampling_h f) as [|[q|[q|q|]|]|q];
      try reflexivity.
    all: unfold ss_mod; cbn [list_to_map foldr uncurry fst snd curry];
      by rewrite !lookup_insert_ne, lookup_empty by done.
  - intros m strength size sharp grainer neutral Hm Hs.
    pose proof (get_mod_nonzero _ _ Hm) as Hm0.
    do 2 eexists. split; [by apply make_grained_run|].
    unfold width, height. cbn.
    split; rewrite Zminus_mod, Zmod_mod, Z.sub_diag; by apply Zmod_0_l.
Qed.

Lemma chroma_modulus_witness :
  _get_mod (hd yuv420p8) = inr 2%Z ∧
  graining two_bands (hd yuv411ish) None false = (inl format_unknown, []) ∧
  ∃ out blank,
    _make_grained (hd yuv420p8) (10, 0) 3 50 spy [128; 128; 128] 2
    = (inr out, [{| call_grainer := spy; call_clip := blank;
                    call_strength := (10, 0) |}]) ∧
    (width blank mod 2 = 0)%Z ∧ (height blank mod 2 = 0)%Z.
Proof.
  split; [|split].
  - apply (chroma_modulus (hd yuv420p8) yuv420p8). reflexivity.
  - apply (proj1 (proj2 (chroma_modulus (hd yuv411ish) yuv411ish eq_refl))).
    + left; reflexivity.
    + vm_compute; discriminate.
    + reflexivity.
  - apply (proj2 (proj2 (chroma_modulus (hd yuv420p8) yuv420p8 eq_refl))).
    + reflexivity.
    + vm_compute; discriminate.
Defined.

(** ** The two paths of [graining] *)

(** [graining] on a clip that passes the format checks and whose masks can
    be built. *)
Lemma graining_run self clip prefilter show_masks fmt m masks :
  format clip = Some fmt →
  color_family fmt = YUV ∨ color_family fmt = GRAY →
  (1 ≤ bits_per_sample fmt)%Z →
  _get_mod clip = inr m →
  band_masks self clip fmt (reference clip prefilter) (peak_of fmt)
             (is_FLOAT (sample_type fmt)) = inr masks →
  graining self clip prefilter show_masks =
    if show_masks then
      (inr (Interleave
              (zip_with (fun thr mask => FrameNum (Text mask "Threshold: " thr 7) 9)
                        (thrs self) masks)), [])
    else
      graineds ← mapM (fun '(strength, size, sharp, grainer) =>
                         _make_grained clip strength size sharp grainer
                                       (neutral_of fmt) m)
                      (zip (zip (zip (strengths self) (sizes self)) (sharps self))
                           (grainers self));
      mret (fold_left (fun out clip_adg => MergeDiff clip_adg (MakeDiff clip out))
                      (zip_with (fun grained mask =>
                                   Expr [grained; clip; mask] (blend_expr (peak_of fmt)))
                                graineds masks)
                      clip).
Proof.
  intros Hf Hc Hb Hm Hk. unfold graining, format_not_none.
  rewrite Hf, lift_bind. cbn [mret result_ret].
  destruct Hc as [Hc|Hc]; rewrite Hc; cbv iota.
  all: unfold get_sample_type, py_lshift.
  all: replace (bits_per_sample fmt <? 0)%Z with false by lia.
  all: replace (bits_per_sample fmt - 1 <? 0)%Z with false by lia.
  all: rewrite !Z.shiftl_1_l.
  all: fold (reference clip prefilter).
  all: unfold peak_of, neutral_of, py_times in *.
  all: destruct (is_FLOAT (sample_type fmt)); cbn [mbind mret result_bind result_ret app].
  all: do 2 (rewrite lift_bind; cbn [mbind mret result_bind result_ret]).
  all: rewrite Hm, lift_bind, Hk, lift_bind; by destruct show_masks.
Qed.

(** C9: with [show_masks=True] no grainer is ever called, and on a clip that
    passes the format checks the result is the interleaving of the band
    masks, each labelled with its threshold and the frame number. *)
Theorem graining_show_masks self clip prefilter :
  snd (graining self clip prefilter true) = [] ∧
  ∀ fmt m masks,
    format clip = Some fmt →
    color_family fmt = YUV ∨ color_family fmt = GRAY →
    (1 ≤ bits_per_sample fmt)%Z →
    _get_mod clip = inr m →
    band_masks self clip fmt (reference clip prefilter) (peak_of fmt)
               (is_FLOAT (sample_type fmt)) = inr masks →
    fst (graining self clip prefilter true)
    = inr (Interleave
             (zip_with (fun thr mask => FrameNum (Text mask "Threshold: " thr 7) 9)
                       (thrs self) masks)).
Proof.
  split.
  - unfold graining. rewrite lift_bind.
    destruct (format_not_none clip) as [e|fmt]; [done|].
    destruct (color_family fmt); try done.
    all: rewrite lift_bind; destruct (if is_FLOAT _ then _ else _); [done|].
    all: rewrite lift_bind; destruct (if is_FLOAT _ then _ else _); [done|].
    all: rewrite lift_bind; destruct (_get_mod clip); [done|].
    all: rewrite lift_bind; by destruct (band_masks _ _ _ _ _ _).
  - intros fmt m masks Hf Hc Hb Hm Hk.
    by rewrite (graining_run _ _ _ true _ _ _ Hf Hc Hb Hm Hk).
Qed.

Lemma graining_show_masks_witness :
  snd (graining two_bands (hd grayS) None true) = [] ∧
  fst (graining two_bands (hd grayS) None true)
  = inr (Interleave
           (zip_with (fun thr mask => FrameNum (Text mask "Threshold: " thr 7) 9)
                     [1 # 4; 3 # 4] two_band_masks)).
Proof.
  split.
  - apply (graining_show_masks two_bands (hd grayS) None).
  - apply (proj2 (graining_show_masks two_bands (hd grayS) None) grayS 1%Z).
    + reflexivity.
    + right; reflexivity.
    + vm_compute; discriminate.
    + reflexivity.
    + vm_compute; reflexivity.
Defined.

(** ** Compositing *)

Lemma blend_expr_px (peak x y z : Q) :
  ¬ peak == 0 →
  expr_px (blend_expr peak) [x; y; z] = Some (x * (z / peak) + y * (1 - z / peak)).
Proof.
  intros H. unfold expr_px, blend_expr. cbn [eval_rpn lookup list_lookup].
  cbn [mbind option_bind eval_binop]. by rewrite (Qeq_bool_false _ _ H).
Qed.

Lemma peak_of_nonzero fmt : (1 ≤ bits_per_sample fmt)%Z → ¬ peak_of fmt == 0.
Proof.
  intros H. unfold peak_of. destruct (is_FLOAT _); [done|].
  intros E. unfold Qeq in E. cbn in E.
  assert (H2 : (2 ^ 1 ≤ 2 ^ bits_per_sample fmt)%Z) by (apply Z.pow_le_mono_r; lia).
  change (2 ^ 1)%Z with 2%Z in H2. lia.
Qed.

(** C2: every blended layer is the cross-fade of the band's grained
    difference and the base clip by the band's mask, and the output is the
    fold of [MergeDiff] over [MakeDiff] along the bands, from the base
    clip. *)
Theorem graining_composite self clip prefilter fmt m masks graineds calls :
  format clip = Some fmt →
  color_family fmt = YUV ∨ color_family fmt = GRAY →
  (1 ≤ bits_per_sample fmt)%Z →
  _get_mod clip = inr m →
  band_masks self clip fmt (reference clip prefilter) (peak_of fmt)
             (is_FLOAT (sample_type fmt)) = inr masks →
  mapM (fun '(strength, size, sharp, grainer) =>
          _make_grained clip strength size sharp grainer (neutral_of fmt) m)
       (zip (zip (zip (strengths self) (sizes self)) (sharps self))
            (grainers self)) = (inr graineds, calls) →
  let peak := peak_of fmt in
  let blended :=
    zip_with (fun grained mask => Expr [grained; clip; mask] (blend_expr peak))
             graineds masks in
  graining self clip prefilter false
  = (inr (fold_left (fun output blended_i =>
                       MergeDiff blended_i (MakeDiff clip output))
                    blended clip), calls) ∧
  ∀ i layer, blended !! i = Some layer →
    ∃ grained mask,
      graineds !! i = Some grained ∧ masks !! i = Some mask ∧
      ∀ ext p vg vb vm,
        sample ext grained p = Some vg →
        sample ext clip p = Some vb →
        sample ext mask p = Some vm →
        yields (sample ext layer p) (vg * (vm / peak) + vb * (1 - vm / peak)).
Proof.
  intros Hf Hc Hb Hm Hk Hg peak blended. split.
  - rewrite (graining_run _ _ _ false _ _ _ Hf Hc Hb Hm Hk), Hg.
    cbn. by rewrite app_nil_r.
  - intros i layer Hi. subst blended.
    apply lookup_zip_with_Some in Hi as (grained & mask & -> & Hgi & Hmi).
    exists grained, mask. repeat split; [done..|].
    intros ext p vg vb vm Hvg Hvb Hvm. cbn [sample mapM].
    rewrite Hvg, Hvb, Hvm. cbn [mbind option_bind mret option_ret].
    rewrite blend_expr_px by by apply peak_of_nonzero.
    by eexists.
Qed.

Lemma graining_composite_witness :
  graining two_bands (hd grayS) None false
  = (inr (fold_left (fun output blended_i =>
                       MergeDiff blended_i (MakeDiff (hd grayS) output))
                    (zip_with (fun grained mask =>
                                 Expr [grained; hd grayS; mask] (blend_expr 1))
                              (fst two_band_graineds) two_band_masks)
                    (hd grayS)),
     snd two_band_graineds) ∧
  ∃ grained mask,
    fst two_band_graineds !! 0%nat = Some grained ∧
    two_band_masks !! 0%nat = Some mask ∧
    yields (sample (flat (1 # 4)) (Expr [grained; hd grayS; mask] (blend_expr 1))
                   origin)
           (1 # 4).
Proof.
  pose proof (graining_composite two_bands (hd grayS) None grayS 1
                two_band_masks (fst two_band_graineds) (snd two_band_graineds))
    as H.
  destruct H as [Hfold Hlayer].
  - reflexivity.
  - right; reflexivity.
  - vm_compute; discriminate.
  - reflexivity.
  - vm_compute; reflexivity.
  - vm_compute; reflexivity.
  - split; [exact Hfold|].
    destruct (Hlayer 0%nat _ eq_refl) as (g & mk & Hg & Hm & Hpx).
    exists g, mk. split; [exact Hg|]. split; [exact Hm|].
    vm_compute in Hg, Hm. injection Hg as <-. injection Hm as <-.
    edestruct (Hpx (flat (1 # 4)) origin) as (w & Hw & Ew); [reflexivity..|].
    exists w. split; [exact Hw|].
    etransitivity; [exact Ew|]. vm_compute. reflexivity.
Defined.

(** ** Exclusive masks *)

Lemma py_index_lookup {A} (l : list A) (i : nat) (x : A) :
  l !! i = Some x → py_index l (Z.of_nat i) = inr x.
Proof.
  intros H. unfold py_index.
  assert (E : (Z.of_nat i <? 0)%Z = false) by (apply Z.ltb_ge; lia).
  by rewrite !E, Nat2Z.id, H.
Qed.

(** The list comprehension over the indices pairs every mask with its
    predecessor. *)
Lemma exclusive_masks_zip (first_mask : VideoNode) (rest : list VideoNode) :
  exclusive_masks (first_mask :: rest)
  = inr (zip_with (fun mask prev => Expr [mask; prev] sub_expr)
                  rest (first_mask :: rest)).
Proof.
  unfold exclusive_masks. apply mapM_result_Forall2.
  apply Forall2_same_length_lookup_2.
  - rewrite length_seqZ, length_zip_with. unfold len. cbn [length]. lia.
  - intros i n e Hn He.
    apply lookup_seqZ in Hn as [-> _].
    apply lookup_zip_with_Some in He as (mask & prev & -> & Hmask & Hprev).
    replace (1 + Z.of_nat i)%Z with (Z.of_nat (S i)) by lia.
    rewrite (py_index_lookup (first_mask :: rest) (S i) mask Hmask).
    replace (Z.of_nat (S i) - 1)%Z with (Z.of_nat i) by lia.
    by rewrite (py_index_lookup _ _ _ Hprev).
Qed.

Lemma telescope (z : Q) (cs : list Q) :
  z + Qsum (zip_with Qminus cs (z :: cs)) == default z (last cs).
Proof.
  revert z. induction cs as [|c cs IH]; intros z.
  - cbn. ring.
  - cbn [zip_with Qsum foldr]. fold (Qsum (zip_with Qminus cs (c :: cs))).
    rewrite last_cons. specialize (IH c).
    destruct (last cs) as [x|]; cbn [default] in *;
      (etransitivity; [|exact IH]); ring.
Qed.

Lemma store_storable rnd fmt v :
  (∀ v z, v == inject_Z z → rnd v = z) →
  storable fmt v → store rnd fmt v == v.
Proof.
  intros Hrnd. unfold storable, store.
  destruct fmt as [f|]; [|reflexivity].
  destruct (sample_type f); [|reflexivity].
  intros (z & E & Hz). rewrite (Hrnd v z E), E.
  rewrite Z.min_r by lia. rewrite Z.max_r by lia. reflexivity.
Qed.

Lemma Qsum_proper (xs ys : list Q) : Forall2 Qeq xs ys → Qsum xs == Qsum ys.
Proof.
  induction 1 as [|x y xs ys E _ IH]; [reflexivity|].
  cbn [Qsum foldr]. fold (Qsum xs) (Qsum ys). by rewrite E, IH.
Qed.

Lemma stored_exclusive_samples rnd ext p fmt (prev : VideoNode) (z : Q)
    (cum : list VideoNode) (cs : list Q) :
  (∀ v z, v == inject_Z z → rnd v = z) →
  stored_sample rnd ext prev p = Some z →
  Forall (fun m => format m = fmt) cum →
  Forall2 (fun m c => stored_sample rnd ext m p = Some c) cum cs →
  Forall (storable fmt) (zip_with Qminus cs (z :: cs)) →
  ∃ es,
    Forall2 (fun m e => stored_sample rnd ext m p = Some e)
            (zip_with (fun mask prev => Expr [mask; prev] sub_expr) cum (prev :: cum))
            es ∧
    Forall2 Qeq es (zip_with Qminus cs (z :: cs)).
Proof.
  intros Hrnd Hz Hfmt H. revert prev z Hz Hfmt.
  induction H as [|m c cum cs Hm _ IH]; intros prev z Hz Hfmt Hst.
  { exists []. split; constructor. }
  cbn [zip_with] in *.
  apply Forall_cons in Hfmt as [Hf Hfmt]. apply Forall_cons in Hst as [Hd Hst].
  destruct (IH m c Hm Hfmt Hst) as (es & Hes & Ees).
  exists (store rnd fmt (c - z) :: es). split; constructor; try done.
  - cbn [stored_sample mapM]. rewrite Hm, Hz.
    unfold format in *. cbn [info]. rewrite Hf. reflexivity.
  - by apply store_storable.
Qed.

(** C3: the exclusive masks are the differences of consecutive cumulative
    masks, the first one against the all-zero mask.  [std.Expr] stores a
    difference as it is when the format of the masks can hold it: always on
    a float format, and on an integer format when it is an integer of
    [0, 2^bits - 1], so not negative.  Where every difference is stored as
    it is, the exclusive samples sum to the sample of the last cumulative
    mask. *)
Theorem exclusive_masks_stored_telescope rnd pref (cum : list VideoNode) fmt :
  (∀ v z, v == inject_Z z → rnd v = z) →
  let zero := BlankClip pref None None [0] in
  let exclusive :=
    zip_with (fun mask prev => Expr [mask; prev] sub_expr) cum (zero :: cum) in
  exclusive_masks (zero :: cum) = inr exclusive ∧
  ∀ ext p (cs : list Q),
    px_plane p = 0%nat →
    Forall (fun m => format m = fmt) cum →
    Forall2 (fun m c => stored_sample rnd ext m p = Some c) cum cs →
    Forall (storable fmt) (zip_with Qminus cs (0 :: cs)) →
    ∃ es,
      Forall2 (fun m e => stored_sample rnd ext m p = Some e) exclusive es ∧
      Forall2 Qeq es (zip_with Qminus cs (0 :: cs)) ∧
      0 + Qsum es == default 0 (last cs).
Proof.
  intros Hrnd zero exclusive. split; [apply exclusive_masks_zip|].
  intros ext p cs Hp Hfmt Hcs Hst.
  assert (Hz : stored_sample rnd ext zero p = Some 0) by (cbn; by rewrite Hp).
  destruct (stored_exclusive_samples rnd ext p fmt zero 0 cum cs Hrnd Hz Hfmt Hcs Hst)
    as (es & Hes & Ees).
  exists es. split; [done|]. split; [done|].
  rewrite (Qsum_proper _ _ Ees). apply telescope.
Qed.

Lemma exclusive_masks_stored_telescope_witness :
  let zero := BlankClip (GetY (hd gray8)) None None [0] in
  let exclusive :=
    zip_with (fun mask prev => Expr [mask; prev] sub_expr)
             ascending_masks (zero :: ascending_masks) in
  ∃ es,
    Forall2 (fun m e => stored_sample py_round (flat 128) m origin = Some e)
            exclusive es ∧
    Forall2 Qeq es (zip_with Qminus [0; 255] (0 :: [0; 255])) ∧
    0 + Qsum es == default 0 (last [0; 255]).
Proof.
  apply (proj2 (exclusive_masks_stored_telescope py_round (GetY (hd gray8))
                  ascending_masks (Some gray8)
                  (fun v z E => eq_trans (py_round_proper v (inject_Z z) E)
                                         (py_round_Z z)))
               (flat 128) origin [0; 255]).
  - reflexivity.
  - repeat constructor.
  - repeat constructor.
  - repeat constructor.
    + exists 0%Z. split; [reflexivity | vm_compute; split; discriminate].
    + exists 255%Z. split; [reflexivity | vm_compute; split; discriminate].
Defined.

(** C3 as stated fails on an integer format: with the 8-bit thresholds 192
    and 64 (overflow 0.1) and a reference sample of 128, the cumulative
    samples are 255 and 0; the second difference, -255, is stored as 0, and
    the exclusive samples 255 and 0 sum to 255, not to the last cumulative
    sample 0. *)
Lemma exclusive_masks_clamp_counterexample :
  let pref := GetY (hd gray8) in
  let zero := BlankClip pref None None [0] in
  let exclusive :=
    zip_with (fun mask prev => Expr [mask; prev] sub_expr)
             descending_masks (zero :: descending_masks) in
  mapM (fun '(thr, ovf) => _make_mask pref thr ovf 255 false)
       [(192, 1 # 10); (64, 1 # 10)] = inr descending_masks ∧
  exclusive_masks (zero :: descending_masks) = inr exclusive ∧
  (fun m => stored_sample py_round (flat 128) m origin) <$> descending_masks
  = [Some 255; Some 0] ∧
  (fun m => stored_sample py_round (flat 128) m origin) <$> exclusive
  = [Some 255; Some 0] ∧
  ¬ 0 + Qsum [255; 0] == 0.
Proof.
  split; [by vm_compute|]. split; [apply exclusive_masks_zip|].
  split; [by vm_compute|]. split; [by vm_compute|].
  vm_compute. discriminate.
Qed.

(** * Further properties *)

(** ** Rounding *)

Lemma py_round_floor (x : Q) :
  py_round x = Qfloor x ∨ py_round x = (Qfloor x + 1)%Z.
Proof.
  unfold py_round.
  destruct (Qcompare _ _); [destruct (Z.even _)|..]; auto.
Qed.

Lemma Qfloor_frac (x : Q) : 0 <= x - inject_Z (Qfloor x) ∧ x - inject_Z (Qfloor x) < 1.
Proof.
  pose proof (Qfloor_le x) as H1. pose proof (Qlt_floor x) as H2.
  rewrite inject_Z_plus in H2. change (inject_Z 1) with 1 in H2. lra.
Qed.

Lemma py_round_mono (x y : Q) : x <= y → (py_round x ≤ py_round y)%Z.
Proof.
  intros H. pose proof (Qfloor_resp_le _ _ H) as Hf.
  destruct (Z.eq_dec (Qfloor x) (Qfloor y)) as [E|E].
  - unfold py_round. rewrite E.
    destruct (Qcompare_spec (x - inject_Z (Qfloor y)) (1 # 2)) as [Hx|Hx|Hx],
             (Qcompare_spec (y - inject_Z (Qfloor y)) (1 # 2)) as [Hy|Hy|Hy];
      try destruct (Z.even _); try lia; lra.
  - destruct (py_round_floor x) as [-> | ->], (py_round_floor y) as [-> | ->]; lia.
Qed.

Lemma py_round_0 : py_round 0 = 0%Z.
Proof. reflexivity. Qed.

(** ** The two mask operations together *)

Lemma func_of_expr (thr overflow peak x v : Q) :
  expr_px (mask_expr thr overflow peak) [x] = Some v →
  _func thr overflow peak x = inr (py_round v).
Proof.
  unfold expr_px. rewrite mask_expr_eval. cbv zeta.
  unfold _func, truediv. cbv zeta.
  destruct (Qle_bool _ x && Qle_bool x _).
  - destruct (Qeq_bool _ 0); [done|]. by intros [= <-].
  - repeat destruct (Qltb _ _); by intros [= <-].
Qed.

Lemma func_raises (thr overflow peak x : Q) :
  expr_px (mask_expr thr overflow peak) [x] = None →
  _func thr overflow peak x = inl ZeroDivisionError.
Proof.
  unfold expr_px. rewrite mask_expr_eval. cbv zeta.
  unfold _func, truediv. cbv zeta.
  destruct (Qle_bool _ x && Qle_bool x _).
  - by destruct (Qeq_bool _ 0).
  - by repeat destruct (Qltb _ _).
Qed.

(** X1: the look-up function of integer formats is the rounding of the
    expression of floating-point formats wherever that has a finite value,
    and raises exactly where it has none. *)
Theorem mask_paths_agree (thr overflow peak x : Q) :
  match expr_px (mask_expr thr overflow peak) [x] with
  | Some v => _func thr overflow peak x = inr (py_round v)
  | None => _func thr overflow peak x = inl ZeroDivisionError
  end.
Proof.
  destruct (expr_px _ _) as [v|] eqn:E.
  - by apply func_of_expr.
  - by apply func_raises.
Qed.

(** The value of the expression, case by case. *)
Lemma mask_value_cases (thr overflow peak x v : Q) :
  expr_px (mask_expr thr overflow peak) [x] = Some v →
  let min_thr := thr - overflow * peak / 2 in
  let max_thr := thr + overflow * peak / 2 in
  (x < min_thr ∧ v = peak) ∨
  (min_thr <= x ∧ max_thr < x ∧ v = 0) ∨
  (min_thr <= x ∧ x <= max_thr ∧ min_thr < max_thr ∧ v = ramp thr overflow peak x).
Proof.
  intros Hv min_thr max_thr. unfold expr_px in Hv.
  rewrite mask_expr_eval in Hv. cbv zeta in Hv. fold min_thr max_thr in Hv.
  destruct (Qle_bool min_thr x) eqn:E1; cbn [andb] in Hv.
  - apply Qle_bool_iff in E1.
    destruct (Qle_bool x max_thr) eqn:E2.
    + apply Qle_bool_iff in E2.
      destruct (Qeq_bool (max_thr - min_thr) 0) eqn:E3; [done|].
      injection Hv as <-. right; right. repeat split; try done.
      apply Qlt_alt. destruct (Qcompare_spec min_thr max_thr) as [E|E|E]; [|done|lra].
      rewrite (proj2 (Qeq_bool_iff (max_thr - min_thr) 0)) in E3; [done|lra].
    + apply Qle_bool_gt in E2.
      rewrite (proj2 (Qltb_ge x min_thr) E1), (proj2 (Qltb_lt max_thr x) E2) in Hv.
      injection Hv as <-. right; left. by repeat split.
  - apply Qle_bool_gt in E1. rewrite (proj2 (Qltb_lt x min_thr) E1) in Hv.
    injection Hv as <-. left. by split.
Qed.

Lemma ramp_eq (thr overflow peak x : Q) :
  let min_thr := thr - overflow * peak / 2 in
  let max_thr := thr + overflow * peak / 2 in
  0 <= peak → min_thr < max_thr → min_thr <= x → x <= max_thr →
  ramp thr overflow peak x == (max_thr - x) / (max_thr - min_thr) * peak.
Proof.
  intros min_thr max_thr Hp Hz H1 H2. unfold ramp. fold min_thr max_thr.
  set (d := max_thr - min_thr). assert (Hd : 0 < d) by (subst d; lra).
  assert (Hi : 0 < / d) by by apply Qinv_lt_0_compat.
  assert (E : (x - min_thr) / d * peak - peak == - ((max_thr - x) / d * peak)).
  { subst d. field. lra. }
  rewrite E, Qabs_opp, Qabs_pos; [reflexivity|].
  unfold Qdiv. apply Qmult_le_0_compat; [|done].
  apply Qmult_le_0_compat; lra.
Qed.

Lemma ramp_bounds (thr overflow peak x : Q) :
  let min_thr := thr - overflow * peak / 2 in
  let max_thr := thr + overflow * peak / 2 in
  0 <= peak → min_thr < max_thr → min_thr <= x → x <= max_thr →
  0 <= ramp thr overflow peak x ∧ ramp thr overflow peak x <= peak.
Proof.
  intros min_thr max_thr Hp Hz H1 H2.
  rewrite (ramp_eq thr overflow peak x Hp Hz H1 H2). fold min_thr max_thr.
  set (d := max_thr - min_thr). assert (Hd : 0 < d) by (subst d; lra).
  assert (Hi : 0 < / d) by by apply Qinv_lt_0_compat.
  assert (H0 : 0 <= (max_thr - x) / d)
    by (unfold Qdiv; apply Qmult_le_0_compat; lra).
  assert (Ht : (max_thr - x) / d <= 1).
  { setoid_replace 1 with (d / d) using relation Qeq by (field; lra).
    unfold Qdiv. apply Qmult_le_compat_r; subst d; lra. }
  split; [by apply Qmult_le_0_compat|].
  setoid_replace peak with (1 * peak) using relation Qeq at 2 by ring.
  by apply Qmult_le_compat_r.
Qed.

Lemma ramp_mono (thr overflow peak x y : Q) :
  let min_thr := thr - overflow * peak / 2 in
  let max_thr := thr + overflow * peak / 2 in
  0 <= peak → min_thr < max_thr → min_thr <= x → x <= y → y <= max_thr →
  ramp thr overflow peak y <= ramp thr overflow peak x.
Proof.
  intros min_thr max_thr Hp Hz H1 H2 H3.
  rewrite (ramp_eq thr overflow peak x), (ramp_eq thr overflow peak y);
    try done; fold min_thr max_thr; try lra.
  set (d := max_thr - min_thr). assert (Hd : 0 < d) by (subst d; lra).
  assert (Hi : 0 < / d) by by apply Qinv_lt_0_compat.
  apply Qmult_le_compat_r; [|done].
  unfold Qdiv. apply Qmult_le_compat_r; lra.
Qed.

Lemma expr_range (thr overflow peak x v : Q) :
  0 <= peak → expr_px (mask_expr thr overflow peak) [x] = Some v →
  0 <= v ∧ v <= peak.
Proof.
  intros Hp Hv.
  destruct (mask_value_cases _ _ _ _ _ Hv)
    as [[_ ->]|[(_ & _ & ->)|(H1 & H2 & Hz & ->)]]; [lra..|].
  by apply ramp_bounds.
Qed.

Lemma func_cases (thr overflow peak x : Q) (z : Z) :
  _func thr overflow peak x = inr z →
  ∃ v, expr_px (mask_expr thr overflow peak) [x] = Some v ∧ z = py_round v.
Proof.
  intros Hz. destruct (expr_px _ _) as [v|] eqn:E.
  - exists v. split; [done|]. rewrite (func_of_expr _ _ _ _ _ E) in Hz. congruence.
  - rewrite (func_raises _ _ _ _ E) in Hz. done.
Qed.

(** X2: for a non-negative peak the mask never leaves [0, peak], whatever
    the threshold and the overflow. *)
Theorem mask_range (thr overflow peak x : Q) :
  0 <= peak →
  (∀ v, expr_px (mask_expr thr overflow peak) [x] = Some v → 0 <= v ∧ v <= peak) ∧
  (∀ z, _func thr overflow peak x = inr z → (0 ≤ z ≤ py_round peak)%Z).
Proof.
  intros Hp. split; [intros v; by apply expr_range|].
  intros z Hz. destruct (func_cases _ _ _ _ _ Hz) as (v & Hv & ->).
  destruct (expr_range _ _ _ _ _ Hp Hv) as [H0 H1].
  rewrite <- py_round_0. split; by apply py_round_mono.
Qed.

Lemma mask_range_witness :
  (∀ v, expr_px (mask_expr (1 # 2) (1 # 5) 1) [9 # 20] = Some v → 0 <= v ∧ v <= 1) ∧
  (∀ z, _func 128 (1 # 5) 255 120 = inr z → (0 ≤ z ≤ 255)%Z).
Proof.
  split.
  - apply (mask_range (1 # 2) (1 # 5) 1 (9 # 20)). vm_compute; discriminate.
  - apply (mask_range 128 (1 # 5) 255 120). vm_compute; discriminate.
Defined.

(** X3: for a non-negative peak the mask does not increase with the
    reference sample, on both kinds of format. *)
Theorem mask_monotone (thr overflow peak x y : Q) :
  0 <= peak → x <= y →
  (∀ vx vy, expr_px (mask_expr thr overflow peak) [x] = Some vx →
            expr_px (mask_expr thr overflow peak) [y] = Some vy → vy <= vx) ∧
  (∀ zx zy, _func thr overflow peak x = inr zx →
            _func thr overflow peak y = inr zy → (zy ≤ zx)%Z).
Proof.
  intros Hp Hxy.
  assert (H : ∀ vx vy, expr_px (mask_expr thr overflow peak) [x] = Some vx →
                       expr_px (mask_expr thr overflow peak) [y] = Some vy →
                       vy <= vx).
  { intros vx vy Hx Hy.
    destruct (expr_range _ _ _ _ _ Hp Hx) as [Hx0 Hx1].
    destruct (expr_range _ _ _ _ _ Hp Hy) as [Hy0 Hy1].
    destruct (mask_value_cases _ _ _ _ _ Hx)
      as [[Ha ->]|[(Ha & Hb & ->)|(Ha & Hb & Hz & ->)]];
    destruct (mask_value_cases _ _ _ _ _ Hy)
      as [[Hc ->]|[(Hc & Hd & ->)|(Hc & Hd & _ & ->)]]; try lra.
    by apply ramp_mono. }
  split; [exact H|]. intros zx zy Hx Hy.
  destruct (func_cases _ _ _ _ _ Hx) as (vx & Hvx & ->).
  destruct (func_cases _ _ _ _ _ Hy) as (vy & Hvy & ->).
  apply py_round_mono. by apply (H vx vy).
Qed.

Lemma mask_monotone_witness :
  (∀ vx vy, expr_px (mask_expr (1 # 2) (1 # 5) 1) [9 # 20] = Some vx →
            expr_px (mask_expr (1 # 2) (1 # 5) 1) [11 # 20] = Some vy → vy <= vx) ∧
  (∀ zx zy, _func 128 (1 # 5) 255 120 = inr zx →
            _func 128 (1 # 5) 255 140 = inr zy → (zy ≤ zx)%Z).
Proof.
  split.
  - apply (mask_monotone (1 # 2) (1 # 5) 1 (9 # 20) (11 # 20));
      vm_compute; discriminate.
  - apply (mask_monotone 128 (1 # 5) 255 120 140); vm_compute; discriminate.
Defined.

(** X4: the ramp joins the two constant parts without a jump: the mask is
    [peak] at [min_thr] and [0] at [max_thr]. *)
Theorem mask_zone_ends (thr overflow peak : Q) :
  let min_thr := thr - overflow * peak / 2 in
  let max_thr := thr + overflow * peak / 2 in
  0 <= peak → min_thr < max_thr →
  yields (expr_px (mask_expr thr overflow peak) [min_thr]) peak ∧
  yields (expr_px (mask_expr thr overflow peak) [max_thr]) 0 ∧
  _func thr overflow peak min_thr = inr (py_round peak) ∧
  _func thr overflow peak max_thr = inr 0%Z.
Proof.
  intros min_thr max_thr Hp Hz.
  assert (E1 : ramp thr overflow peak min_thr == peak).
  { rewrite ramp_eq; fold min_thr max_thr; try done; try lra. field. lra. }
  assert (E2 : ramp thr overflow peak max_thr == 0).
  { rewrite ramp_eq; fold min_thr max_thr; try done; try lra. field. lra. }
  repeat split.
  - rewrite expr_ramp; fold min_thr max_thr; try done; try lra. by eexists.
  - rewrite expr_ramp; fold min_thr max_thr; try done; try lra. by eexists.
  - rewrite func_ramp; fold min_thr max_thr; try done; try lra. by rewrite E1.
  - rewrite func_ramp; fold min_thr max_thr; try done; try lra.
    by rewrite E2, py_round_0.
Qed.

Lemma mask_zone_ends_witness :
  yields (expr_px (mask_expr (1 # 2) (1 # 5) 1) [(1 # 2) - (1 # 5) * 1 / 2]) 1 ∧
  yields (expr_px (mask_expr (1 # 2) (1 # 5) 1) [(1 # 2) + (1 # 5) * 1 / 2]) 0 ∧
  _func (1 # 2) (1 # 5) 1 ((1 # 2) - (1 # 5) * 1 / 2) = inr (py_round 1) ∧
  _func (1 # 2) (1 # 5) 1 ((1 # 2) + (1 # 5) * 1 / 2) = inr 0%Z.
Proof.
  apply (mask_zone_ends (1 # 2) (1 # 5) 1).
  - vm_compute; discriminate.
  - reflexivity.
Defined.

(** ** Construction, continued *)

Lemma fill_last_length {A} (l k : list A) (n : nat) :
  fill_last l (Z.of_nat n) = inr k → (n ≤ length k)%nat ∧ l `prefix_of` k.
Proof.
  unfold fill_last. destruct (py_index l (-1)) as [e|a]; [done|].
  intros [= <-]. split; [|by apply prefix_app_r].
  rewrite length_app. unfold py_times, len. rewrite length_replicate. lia.
Qed.

(** X5: the length check raises exactly when each of [strengths], [sizes]
    and [sharps] differs in length from [thrs]. *)
Theorem init_length_error_iff thrs strengths sizes sharps ovf grn :
  __init__ thrs strengths sizes sharps ovf grn = inl length_error ↔
  length strengths ≠ length thrs ∧ length sizes ≠ length thrs
    ∧ length sharps ≠ length thrs.
Proof.
  split.
  - intros H.
    destruct (decide (length strengths = length thrs)) as [E1|E1];
      [|destruct (decide (length sizes = length thrs)) as [E2|E2];
        [|destruct (decide (length sharps = length thrs)) as [E3|E3]; [|done]]].
    all: by destruct (init_length_check_lenient thrs strengths sizes sharps
                        ovf grn length_error) as [?|?]; auto.
  - intros (H1 & H2 & H3). unfold __init__, len. cbn [forallb].
    rewrite !(proj2 (Z.eqb_neq _ _)) by lia. reflexivity.
Qed.

(** X6: an empty sequence given for [overflows] or for [grainers] has no
    last element to repeat: construction ends with [IndexError]. *)
Theorem init_empty_sequence thrs strengths sizes sharps :
  length strengths = length thrs ∨ length sizes = length thrs
    ∨ length sharps = length thrs →
  (∀ grn, __init__ thrs strengths sizes sharps (OvfSeq []) grn = inl IndexError) ∧
  (∀ v, __init__ thrs strengths sizes sharps (OvfFloat v) (GrSeq [])
        = inl IndexError).
Proof.
  intros H. unfold __init__. rewrite (length_check_lenient _ _ _ _ H).
  split; reflexivity.
Qed.

Lemma init_empty_sequence_witness :
  (∀ grn, __init__ [64; 192] [(10, 0); (5, 0)] [1; 1] [50; 50] (OvfSeq []) grn
          = inl IndexError) ∧
  (∀ v, __init__ [64; 192] [(10, 0); (5, 0)] [1; 1] [50; 50] (OvfFloat v) (GrSeq [])
        = inl IndexError).
Proof.
  apply (init_empty_sequence [64; 192] [(10, 0); (5, 0)] [1; 1] [50; 50]).
  left; reflexivity.
Defined.

(** X7: a constructed object holds the four sequences as given, and an
    overflow and a grainer for every threshold: [zip(thrs, overflows)] drops
    no threshold. *)
Theorem init_invariant ths strs szs shs ovf grn g :
  __init__ ths strs szs shs ovf grn = inr g →
  thrs g = ths ∧ strengths g = strs ∧
  sizes g = szs ∧ sharps g = shs ∧
  (length ths ≤ length (overflows g))%nat ∧
  (length ths ≤ length (grainers g))%nat ∧
  length (zip (thrs g) (overflows g)) = length ths.
Proof.
  unfold __init__. destruct (forallb _ _); [done|].
  intros H.
  assert (∃ os gs,
    g = {| thrs := ths; strengths := strs; sizes := szs;
           sharps := shs; overflows := os; grainers := gs |} ∧
    (length ths ≤ length os)%nat ∧ (length ths ≤ length gs)%nat)
    as (os & gs & -> & Ho & Hg).
  { assert (Hgs : ∀ gs,
      match grn with
      | GrOne g => mret (py_times g (len ths))
      | GrSeq l => fill_last l (len ths)
      end = inr gs → (length ths ≤ length gs)%nat).
    { intros gs. destruct grn as [x|l].
      - intros [= <-]. unfold py_times, len. rewrite length_replicate. lia.
      - intros Hl. by apply fill_last_length in Hl as [? _]. }
    destruct ovf as [|v|l]; cbn [mbind mret result_bind result_ret] in H.
    - unfold truediv in H. destruct (Qeq_bool _ _); [done|].
      cbn [mbind mret result_bind result_ret] in H.
      destruct (fill_last [_] _) as [e|os] eqn:Eo; [done|].
      cbn [mbind mret result_bind result_ret] in H.
      destruct (match grn with GrOne _ => _ | GrSeq _ => _ end) as [e|gs] eqn:Eg;
        [done|]. injection H as <-.
      exists os, gs. split; [done|]. split; [|by apply Hgs].
      by apply fill_last_length in Eo as [? _].
    - destruct (match grn with GrOne _ => _ | GrSeq _ => _ end) as [e|gs] eqn:Eg;
        [done|]. injection H as <-.
      eexists _, gs. split; [done|]. split; [|by apply Hgs].
      unfold py_times, len. rewrite length_replicate. lia.
    - destruct (fill_last l _) as [e|os] eqn:Eo; [done|].
      cbn [mbind mret result_bind result_ret] in H.
      destruct (match grn with GrOne _ => _ | GrSeq _ => _ end) as [e|gs] eqn:Eg;
        [done|]. injection H as <-.
      exists os, gs. split; [done|]. split; [|by apply Hgs].
      by apply fill_last_length in Eo as [? _]. }
  cbn. repeat split; try done. rewrite length_zip. lia.
Qed.

Lemma init_invariant_witness :
  let g := {| thrs := [64; 192]; strengths := [(10, 0); (5, 0)]; sizes := [1];
              sharps := [50; 50]; overflows := [1 / 2; 1 / 2];
              grainers := [AddGrain [("seed", [-1]); ("constant", [0])];
                           AddGrain [("seed", [-1]); ("constant", [0])]] |} in
  thrs g = [64; 192] ∧ strengths g = [(10, 0); (5, 0)] ∧
  sizes g = [1] ∧ sharps g = [50; 50] ∧
  (2 ≤ length (overflows g))%nat ∧ (2 ≤ length (grainers g))%nat ∧
  length (zip (thrs g) (overflows g)) = 2%nat.
Proof.
  apply (init_invariant [64; 192] [(10, 0); (5, 0)] [1] [50; 50] OvfNone
           default_grainers).
  reflexivity.
Defined.

(** ** The down-sampled size and the grain layer *)

(** X8: [_m__] raises on a zero modulus; for a positive one it returns the
    largest multiple of the modulus that does not exceed [x], and leaves
    such a multiple unchanged. *)
Theorem m___floor (x m : Z) :
  _m__ x 0 = inl ZeroDivisionError ∧
  ((0 < m)%Z →
   ∃ r, _m__ x m = inr r ∧ (r ≤ x < r + m)%Z ∧ (r mod m = 0)%Z ∧ _m__ r m = inr r).
Proof.
  split; [reflexivity|]. intros Hm. unfold _m__.
  rewrite (proj2 (Z.eqb_neq m 0)) by lia.
  pose proof (Z.mod_pos_bound x m Hm) as Hb.
  assert (Hr : ((x - x mod m) mod m = 0)%Z).
  { rewrite Zminus_mod, Zmod_mod, Z.sub_diag. apply Zmod_0_l. }
  eexists. split; [reflexivity|]. split; [lia|]. split; [exact Hr|].
  cbn. by rewrite Hr, Z.sub_0_r.
Qed.

Lemma m___floor_witness :
  ∃ r, _m__ 1079 4 = inr r ∧ (r ≤ 1079 < r + 4)%Z ∧ (r mod 4 = 0)%Z
       ∧ _m__ r 4 = inr r.
Proof. apply (proj2 (m___floor 1079 4)). lia. Defined.

(** X9: whatever the band's size, the grain layer is scaled back to the
    size of the source clip, with a cubic kernel whose parameters satisfy
    [b + 2c = 1], [b = 1 - sharp/50]. *)
Theorem make_grained_kernel clip strength size sharp grainer neutral m :
  ¬ size == 0 → m ≠ 0%Z →
  ∃ grained b c,
    fst (_make_grained clip strength size sharp grainer neutral m)
    = inr (MakeDiff clip (Bicubic grained (width clip) (height clip) b c)) ∧
    b == 1 - sharp / 50 ∧ b + 2 * c == 1 ∧
    width (Bicubic grained (width clip) (height clip) b c) = width clip ∧
    height (Bicubic grained (width clip) (height clip) b c) = height clip.
Proof.
  intros Hs Hm. rewrite (make_grained_run _ _ _ _ _ _ _ Hs Hm).
  do 3 eexists. split; [reflexivity|]. repeat split; field.
Qed.

Lemma make_grained_kernel_witness :
  ∃ grained b c,
    fst (_make_grained (hd gray8) (10, 0) 3 50 spy [128] 1)
    = inr (MakeDiff (hd gray8) (Bicubic grained 1920 1080 b c)) ∧
    b == 1 - 50 / 50 ∧ b + 2 * c == 1 ∧
    width (Bicubic grained 1920 1080 b c) = 1920%Z ∧
    height (Bicubic grained 1920 1080 b c) = 1080%Z.
Proof.
  apply (make_grained_kernel (hd gray8) (10, 0) 3 50 spy [128] 1).
  - vm_compute; discriminate.
  - lia.
Defined.

Lemma make_grained_size_zero clip strength size sharp grainer neutral m :
  size == 0 →
  _make_grained clip strength size sharp grainer neutral m
  = (inl ZeroDivisionError, []).
Proof.
  intros Hs. unfold _make_grained, truediv.
  by rewrite (proj2 (Qeq_bool_iff size 0) Hs).
Qed.

(** ** Grainer calls *)

Lemma mapM_M_cons {A B} (f : A → M B) (a : A) (l : list A) :
  mapM f (a :: l) = y ← f a; k ← mapM f l; mret (y :: k).
Proof. reflexivity. Qed.

Lemma make_grained_call clip neutral m (band : Q * Q * Q * Q * Grainer) :
  m ≠ 0%Z → ¬ band.1.1.2 == 0 →
  ∃ out,
    (let '(strength, size, sharp, grainer) := band in
     _make_grained clip strength size sharp grainer neutral m)
    = (inr out, [band_call clip neutral m band]).
Proof.
  destruct band as [[[strength size] sharp] grainer]. cbn [fst snd].
  intros Hm Hs. rewrite (make_grained_run _ _ _ _ _ _ _ Hs Hm). by eexists.
Qed.

Lemma mapM_make_grained clip neutral m (bands : list (Q * Q * Q * Q * Grainer)) :
  m ≠ 0%Z → Forall (fun band => ¬ band.1.1.2 == 0) bands →
  ∃ outs,
    mapM (fun '(strength, size, sharp, grainer) =>
            _make_grained clip strength size sharp grainer neutral m) bands
    = (inr outs, band_call clip neutral m <$> bands).
Proof.
  intros Hm H. induction H as [|band bands Hb _ [outs IH]]; [by eexists|].
  rewrite mapM_M_cons, IH.
  destruct (make_grained_call clip neutral m band Hm Hb) as [out ->].
  eexists. cbn. by rewrite app_nil_r.
Qed.


(** X10: when every band has a non-zero size and a down-sampled width and
    height that are positive, [graining] calls the grainer of every band
    exactly once, in band order, each on a blank clip of the band's
    down-sampled size and the neutral colour, with the band's strength. *)
Theorem graining_calls self clip prefilter fmt m masks :
  format clip = Some fmt →
  color_family fmt = YUV ∨ color_family fmt = GRAY →
  (1 ≤ bits_per_sample fmt)%Z →
  _get_mod clip = inr m →
  band_masks self clip fmt (reference clip prefilter) (peak_of fmt)
             (is_FLOAT (sample_type fmt)) = inr masks →
  Forall (fun band => ¬ band.1.1.2 == 0 ∧
                      (0 < down_size (width clip) band.1.1.2 m)%Z ∧
                      (0 < down_size (height clip) band.1.1.2 m)%Z)
         (bands_of self) →
  (∃ out, fst (graining self clip prefilter false) = inr out) ∧
  snd (graining self clip prefilter false)
  = band_call clip (neutral_of fmt) m <$> bands_of self.
Proof.
  intros Hf Hc Hb Hm Hk Hz.
  assert (Hnz : Forall (fun band => ¬ band.1.1.2 == 0) (bands_of self)).
  { eapply Forall_impl; [exact Hz|]. by intros band [H _]. }
  rewrite (graining_run _ _ _ false _ _ _ Hf Hc Hb Hm Hk).
  destruct (mapM_make_grained clip (neutral_of fmt) m (bands_of self)
              (get_mod_nonzero _ _ Hm) Hnz) as [outs E].
  unfold bands_of in E. rewrite E. cbn. rewrite app_nil_r.
  split; [by eexists | done].
Qed.

Lemma graining_calls_witness :
  (∃ out, fst (graining two_bands (hd grayS) None false) = inr out) ∧
  snd (graining two_bands (hd grayS) None false)
  = band_call (hd grayS) (neutral_of grayS) 1 <$> bands_of two_bands.
Proof.
  apply (graining_calls two_bands (hd grayS) None grayS 1 two_band_masks).
  - reflexivity.
  - right; reflexivity.
  - vm_compute; discriminate.
  - reflexivity.
  - vm_compute; reflexivity.
  - repeat constructor; vm_compute; (discriminate || reflexivity).
Defined.

(** ** Bands that [std.BlankClip] refuses *)

Lemma band_call_accepted clip neutral m (band : Q * Q * Q * Q * Grainer) :
  blank_accepted (call_clip (band_call clip neutral m band))
  = (0 <? down_size (width clip) band.1.1.2 m)%Z
    && (0 <? down_size (height clip) band.1.1.2 m)%Z.
Proof. by destruct band as [[[strength size] sharp] grainer]. Qed.

Lemma accepted_calls_positive clip neutral m (bands : list (Q * Q * Q * Q * Grainer)) :
  Forall (fun call => (0 < width (call_clip call))%Z ∧ (0 < height (call_clip call))%Z)
         (accepted_calls (band_call clip neutral m <$> bands)).
Proof.
  induction bands as [|band bands IH]; [constructor|].
  cbn [fmap list_fmap accepted_calls].
  destruct (blank_accepted _) eqn:E; [|constructor].
  constructor; [|exact IH].
  rewrite band_call_accepted in E. apply andb_true_iff in E as [Hw Hh].
  apply Z.ltb_lt in Hw, Hh.
  by destruct band as [[[strength size] sharp] grainer].
Qed.

Lemma accepted_calls_all (calls : list grain_call) :
  forallb (fun call => blank_accepted (call_clip call)) calls = true →
  accepted_calls calls = calls.
Proof.
  induction calls as [|call calls IH]; [done|].
  cbn [forallb accepted_calls]. intros [-> H]%andb_true_iff. by rewrite IH.
Qed.

Lemma accepted_calls_cut (pre rest : list grain_call) (call : grain_call) :
  forallb (fun call => blank_accepted (call_clip call)) pre = true →
  blank_accepted (call_clip call) = false →
  forallb (fun call => blank_accepted (call_clip call)) (pre ++ call :: rest) = false ∧
  accepted_calls (pre ++ call :: rest) = pre.
Proof.
  intros Hpre Hc. induction pre as [|c pre IH].
  - cbn. by rewrite Hc.
  - cbn [forallb] in Hpre. apply andb_true_iff in Hpre as [Ec Hpre].
    destruct (IH Hpre) as [IH1 IH2].
    cbn [app forallb accepted_calls]. by rewrite Ec, IH1, IH2.
Qed.

(** The calls that the bands make, up to the band that raises. *)
Lemma mapM_make_grained_log clip neutral m (bands : list (Q * Q * Q * Q * Grainer)) :
  m ≠ 0%Z →
  ∃ r k,
    mapM (fun '(strength, size, sharp, grainer) =>
            _make_grained clip strength size sharp grainer neutral m) bands
    = (r, band_call clip neutral m <$> take k bands) ∧
    ∀ outs, r = inr outs → (length bands ≤ k)%nat.
Proof.
  intros Hm. induction bands as [|band bands (r & k & E & Hk)].
  { exists (inr []), 0%nat. split; [reflexivity | cbn; lia]. }
  rewrite mapM_M_cons.
  destruct (Qeq_dec band.1.1.2 0) as [Hz|Hnz].
  - destruct band as [[[strength size] sharp] grainer]. cbn [fst snd] in Hz.
    rewrite (make_grained_size_zero _ _ _ _ _ _ _ Hz).
    exists (inl ZeroDivisionError), 0%nat. split; [reflexivity | by intros ? [=]].
  - destruct (make_grained_call clip neutral m band Hm Hnz) as [out ->].
    rewrite E.
    exists (match r with inl e => inl e | inr outs => inr (out :: outs) end), (S k).
    split.
    + destruct r; cbn; by rewrite ?app_nil_r.
    + intros outs. destruct r as [e|outs']; [done|]. intros _.
      specialize (Hk _ eq_refl). cbn [length]. lia.
Qed.

(** The calls that [graining] makes are those of a prefix of the bands. *)
Lemma graining_log self clip prefilter m :
  _get_mod clip = inr m →
  ∃ r k neutral,
    graining self clip prefilter false
    = (r, band_call clip neutral m <$> take k (bands_of self)) ∧
    ∀ out, r = inr out → (length (bands_of self) ≤ k)%nat.
Proof.
  intros Hm. pose proof (get_mod_nonzero _ _ Hm) as Hm0.
  assert (early : ∀ e, ∃ r k neutral,
            (@inl exn VideoNode e, @nil grain_call)
            = (r, band_call clip neutral m <$> take k (bands_of self)) ∧
            ∀ out, r = inr out → (length (bands_of self) ≤ k)%nat).
  { intros e. exists (inl e), 0%nat, []. split; [reflexivity | by intros ? [=]]. }
  assert (late : ∀ neutral peak masks, ∃ r k neutral',
            (graineds ← mapM (fun '(strength, size, sharp, grainer) =>
                                _make_grained clip strength size sharp grainer neutral m)
                             (zip (zip (zip (strengths self) (sizes self)) (sharps self))
                                  (grainers self));
             mret (fold_left (fun out clip_adg => MergeDiff clip_adg (MakeDiff clip out))
                             (zip_with (fun grained mask =>
                                          Expr [grained; clip; mask] (blend_expr peak))
                                       graineds masks)
                             clip))
            = (r, band_call clip neutral' m <$> take k (bands_of self)) ∧
            ∀ out, r = inr out → (length (bands_of self) ≤ k)%nat).
  { intros neutral peak masks.
    destruct (mapM_make_grained_log clip neutral m (bands_of self) Hm0)
      as (r & k & E & Hk).
    unfold bands_of in E. rewrite E. destruct r as [e|graineds].
    - exists (inl e), k, neutral. split; [reflexivity | by intros ? [=]].
    - eexists (inr _), k, neutral. split; [cbn; by rewrite app_nil_r|].
      intros _ _. by apply (Hk _ eq_refl). }
  unfold graining, format_not_none. rewrite Hm.
  destruct (format clip) as [fmt|]; rewrite lift_bind; [|apply early].
  cbn [mret result_ret].
  destruct (color_family fmt); try apply early.
  all: unfold get_sample_type, py_lshift.
  all: destruct (is_FLOAT (sample_type fmt)).
  all: repeat match goal with
       | |- context [if ?b then raise _ else _] => destruct b
       end.
  all: cbn [mbind mret result_bind result_ret].
  all: repeat (rewrite lift_bind; cbn [mbind mret result_bind result_ret]).
  all: try apply early.
  all: destruct (band_masks _ _ _ _ _ _) as [e|masks]; [apply early | apply late].
Qed.

(** C8: a band whose size yields a down-sampled width or height of zero
    asks [std.BlankClip] for a clip of that size.  The plugin refuses it, so
    [_make_grained] raises and the grainer of the band is not called; and
    [graining] with such a band raises, every grainer call it has made by
    then being on a clip of positive width and height. *)
Theorem zero_size_band_refused clip strength size sharp grainer neutral m :
  ¬ size == 0 → m ≠ 0%Z →
  down_size (width clip) size m = 0%Z ∨ down_size (height clip) size m = 0%Z →
  validated (_make_grained clip strength size sharp grainer neutral m)
  = (inl blank_refused, []) ∧
  ∀ self prefilter pre post,
    _get_mod clip = inr m →
    bands_of self = pre ++ (strength, size, sharp, grainer) :: post →
    ∃ e calls,
      validated (graining self clip prefilter false) = (inl e, calls) ∧
      Forall (fun call => (0 < width (call_clip call))%Z ∧
                          (0 < height (call_clip call))%Z) calls.
Proof.
  intros Hs Hm Hz.
  assert (Href : ∀ neutral,
            blank_accepted (call_clip (band_call clip neutral m
                                         (strength, size, sharp, grainer))) = false).
  { intros n. rewrite band_call_accepted. cbn [fst snd].
    destruct Hz as [-> | ->]; [done | apply andb_false_r]. }
  split.
  - rewrite (make_grained_run _ _ _ _ _ _ _ Hs Hm).
    unfold validated. cbn [snd forallb accepted_calls call_clip].
    specialize (Href neutral). unfold band_call, down_size in Href.
    cbn [call_clip] in Href. by rewrite Href.
  - intros self prefilter pre post Hmod Hbands.
    destruct (graining_log self clip prefilter m Hmod) as (r & k & ntr & E & Hk).
    rewrite E. unfold validated. cbn [snd].
    destruct (forallb _ _) eqn:Hall.
    + destruct r as [e|out].
      * exists e, (band_call clip ntr m <$> take k (bands_of self)).
        split; [done|]. rewrite <- (accepted_calls_all _ Hall).
        apply accepted_calls_positive.
      * specialize (Hk _ eq_refl). rewrite take_ge in Hall by done.
        rewrite Hbands, fmap_app, fmap_cons, forallb_app in Hall.
        cbn [forallb] in Hall. rewrite Href, andb_false_r in Hall. done.
    + exists blank_refused, (accepted_calls (band_call clip ntr m <$> take k (bands_of self))).
      split; [done | apply accepted_calls_positive].
Qed.

Lemma zero_size_band_refused_witness :
  validated (_make_grained (hd gray8) (10, 0) 5000 50 spy [128] 1)
  = (inl blank_refused, []) ∧
  ∃ e calls,
    validated (graining coarse_band (hd gray8) None false) = (inl e, calls) ∧
    Forall (fun call => (0 < width (call_clip call))%Z ∧
                        (0 < height (call_clip call))%Z) calls.
Proof.
  destruct (zero_size_band_refused (hd gray8) (10, 0) 5000 50 spy [128] 1)
    as [Hband Hgraining].
  - vm_compute; discriminate.
  - lia.
  - left; vm_compute; reflexivity.
  - split; [exact Hband|].
    apply (Hgraining coarse_band None [] []); reflexivity.
Defined.

(** The refusal is that of the first such band: the grainers of the bands
    before it have been called, its own and those of the bands after it have
    not. *)
Lemma graining_refused_band self clip prefilter fmt m masks pre band post :
  format clip = Some fmt →
  color_family fmt = YUV ∨ color_family fmt = GRAY →
  (1 ≤ bits_per_sample fmt)%Z →
  _get_mod clip = inr m →
  band_masks self clip fmt (reference clip prefilter) (peak_of fmt)
             (is_FLOAT (sample_type fmt)) = inr masks →
  bands_of self = pre ++ band :: post →
  Forall (fun band => ¬ band.1.1.2 == 0 ∧
                      (0 < down_size (width clip) band.1.1.2 m)%Z ∧
                      (0 < down_size (height clip) band.1.1.2 m)%Z) pre →
  ¬ band.1.1.2 == 0 →
  down_size (width clip) band.1.1.2 m = 0%Z ∨
  down_size (height clip) band.1.1.2 m = 0%Z →
  validated (graining self clip prefilter false)
  = (inl blank_refused, band_call clip (neutral_of fmt) m <$> pre).
Proof.
  intros Hf Hc Hb Hm Hk Hs Hpre Hnz Hz.
  pose proof (get_mod_nonzero _ _ Hm) as Hm0.
  rewrite (graining_run _ _ _ false _ _ _ Hf Hc Hb Hm Hk).
  fold (bands_of self). rewrite Hs.
  assert (E : ∃ r rest,
            mapM (fun '(strength, size, sharp, grainer) =>
                    _make_grained clip strength size sharp grainer (neutral_of fmt) m)
                 (pre ++ band :: post)
            = (r, (band_call clip (neutral_of fmt) m <$> pre)
                  ++ band_call clip (neutral_of fmt) m band :: rest)).
  { clear Hs. induction Hpre as [|b bs [Hb0 _] _ (r & rest & IH)].
    - cbn [app fmap list_fmap]. rewrite mapM_M_cons.
      destruct (make_grained_call clip (neutral_of fmt) m band Hm0 Hnz) as [out ->].
      destruct (mapM _ post) as [r rest].
      exists (match r with inl e => inl e | inr outs => inr (out :: outs) end), rest.
      destruct r; cbn; by rewrite ?app_nil_r.
    - cbn [app]. rewrite mapM_M_cons, IH.
      destruct (make_grained_call clip (neutral_of fmt) m b Hm0 Hb0) as [out ->].
      exists (match r with inl e => inl e | inr outs => inr (out :: outs) end), rest.
      destruct r; cbn; by rewrite ?app_nil_r. }
  destruct E as (r & rest & ->).
  assert (Hacc : forallb (fun call => blank_accepted (call_clip call))
                   (band_call clip (neutral_of fmt) m <$> pre) = true).
  { clear -Hpre. induction Hpre as [|b bs (_ & Hw & Hh) _ IH]; [done|].
    cbn [fmap list_fmap forallb]. rewrite band_call_accepted, IH.
    apply Z.ltb_lt in Hw, Hh. by rewrite Hw, Hh. }
  assert (Href : blank_accepted (call_clip (band_call clip (neutral_of fmt) m band))
                 = false).
  { rewrite band_call_accepted. destruct Hz as [-> | ->]; [done | apply andb_false_r]. }
  destruct (accepted_calls_cut _ rest _ Hacc Href) as [Hall Hcut].
  unfold validated.
  destruct r as [e|outs]; cbn [mbind M_bind mret M_ret snd]; rewrite ?app_nil_r;
    cbn [snd]; by rewrite Hall, Hcut.
Qed.



(** X12: with no band at all, [graining] returns the input clip itself and
    calls no grainer. *)
Theorem graining_no_band self clip prefilter fmt m :
  format clip = Some fmt →
  color_family fmt = YUV ∨ color_family fmt = GRAY →
  (1 ≤ bits_per_sample fmt)%Z →
  _get_mod clip = inr m →
  thrs self = [] → strengths self = [] →
  graining self clip prefilter false = (inr clip, []).
Proof.
  intros Hf Hc Hb Hm Ht Hs.
  assert (Hk : band_masks self clip fmt (reference clip prefilter) (peak_of fmt)
                 (is_FLOAT (sample_type fmt)) = inr []).
  { unfold band_masks. rewrite Ht. cbn.
    destruct (num_planes fmt =? 3)%Z; [|done].
    destruct (is_FLOAT _); [|done]. by destruct (get_plane_size clip fmt 1). }
  rewrite (graining_run _ _ _ false _ _ _ Hf Hc Hb Hm Hk). by rewrite Hs.
Qed.

Lemma graining_no_band_witness :
  graining no_band (hd yuv420p8) None false = (inr (hd yuv420p8), []).
Proof.
  apply (graining_no_band no_band (hd yuv420p8) None yuv420p8 2).
  - reflexivity.
  - left; reflexivity.
  - vm_compute; discriminate.
  - reflexivity.
  - reflexivity.
  - reflexivity.
Defined.

(** X13: a clip of variable format, or of a colour family other than YUV
    and GRAY, ends [graining] with [FormatError] before anything else is
    looked at, in both modes. *)
Theorem graining_format_errors self clip prefilter show_masks :
  (format clip = None →
   graining self clip prefilter show_masks
   = (inl (FormatError "Variable format not allowed!"), [])) ∧
  (∀ fmt, format clip = Some fmt →
          color_family fmt ≠ YUV → color_family fmt ≠ GRAY →
          graining self clip prefilter show_masks = (inl unsupported_family, [])).
Proof.
  unfold graining, format_not_none. split.
  - by intros ->.
  - intros fmt -> H1 H2. rewrite lift_bind. cbn [mret result_ret].
    by destruct (color_family fmt).
Qed.

Lemma graining_format_errors_witness :
  graining two_bands variable_clip None true
  = (inl (FormatError "Variable format not allowed!"), []) ∧
  graining two_bands (hd rgb24) None false = (inl unsupported_family, []).
Proof.
  split.
  - apply (graining_format_errors two_bands variable_clip None true). reflexivity.
  - apply (proj2 (graining_format_errors two_bands (hd rgb24) None false) rgb24).
    + reflexivity.
    + discriminate.
    + discriminate.
Defined.

(** ** The built-in grainers *)

Lemma py_int_spec (s : Q) :
  Qabs (s - inject_Z (py_int s)) < 1 ∧ Qabs (inject_Z (py_int s)) <= Qabs s.
Proof.
  destruct s as [n d]. unfold py_int. cbn [Qnum Qden].
  pose proof (Z.quot_rem' n (Z.pos d)) as Hq.
  pose proof (Z.rem_bound_abs n (Z.pos d) ltac:(lia)) as Hr.
  pose proof (Z.rem_sign_mul n (Z.pos d) ltac:(lia)) as Hs.
  set (q := (n ÷ Z.pos d)%Z) in *. set (r := Z.rem n (Z.pos d)) in *.
  unfold Qlt, Qle, Qabs, Qminus, Qplus, Qopp, inject_Z. cbn [Qnum Qden].
  rewrite ?Pos.mul_1_r, ?Z.mul_1_r, ?Z.mul_1_l.
  split.
  - replace (n + - q * Z.pos d)%Z with r by lia. lia.
  - subst q. rewrite <- Z.quot_abs by lia. rewrite Z.mul_comm.
    change (Z.abs (Z.pos d)) with (Z.pos d). apply Z.mul_quot_le; lia.
Qed.

(** X14: [F3kdbGrain] passes integer strengths: each strength is truncated
    towards zero, so a strength of magnitude below 1 gives no grain. *)
Theorem f3kdb_grain_truncates (kw : kwargs) (c : VideoNode) (luma chroma : Q) :
  ∃ zl zc : Z,
    grain (F3kdbGrain kw) c (luma, chroma)
    = Call "dumb3kdb" c
        ([("threshold", [1]); ("grain", [inject_Z zl; inject_Z zc])] ++ kw) ∧
    Qabs (luma - inject_Z zl) < 1 ∧ Qabs (inject_Z zl) <= Qabs luma ∧
    Qabs (chroma - inject_Z zc) < 1 ∧ Qabs (inject_Z zc) <= Qabs chroma ∧
    (Qabs luma < 1 → zl = 0%Z) ∧ (Qabs chroma < 1 → zc = 0%Z).
Proof.
  exists (py_int luma), (py_int chroma).
  destruct (py_int_spec luma) as [L1 L2], (py_int_spec chroma) as [C1 C2].
  split; [reflexivity|]. repeat split; try done.
  - intros H. assert (Hz : Qabs (inject_Z (py_int luma)) < 1) by lra.
    revert Hz. generalize (py_int luma). intros z.
    unfold Qlt, Qabs, inject_Z. cbn. lia.
  - intros H. assert (Hz : Qabs (inject_Z (py_int chroma)) < 1) by lra.
    revert Hz. generalize (py_int chroma). intros z.
    unfold Qlt, Qabs, inject_Z. cbn. lia.
Qed.

Lemma f3kdb_grain_truncates_witness :
  grain (F3kdbGrain []) (hd gray8) (9 # 10, - (1 # 2))
  = Call "dumb3kdb" (hd gray8)
      [("threshold", [1]); ("grain", [inject_Z 0; inject_Z 0])].
Proof.
  destruct (f3kdb_grain_truncates [] (hd gray8) (9 # 10) (- (1 # 2)))
    as (zl & zc & E & _ & _ & _ & _ & Hl & Hc).
  rewrite E, Hl, Hc by (vm_compute; reflexivity). reflexivity.
Defined.

(** ** adaptative_regrain *)

Lemma py_min2_le_max2 (a b : Q) : py_min2 a b <= py_max2 a b.
Proof.
  unfold py_min2, py_max2.
  destruct (Qltb a b) eqn:E1, (Qltb b a) eqn:E2;
    rewrite ?Qltb_lt, ?Qltb_ge in *; lra.
Qed.

Lemma diff_cases Merge (psa hi lo : Q) (new adapt : VideoNode) :
  (hi < psa → _diff Merge psa hi lo new adapt = inr new) ∧
  (psa <= hi → psa < lo → _diff Merge psa hi lo new adapt = inr adapt) ∧
  (lo <= psa → psa <= hi → lo < hi →
   ∃ w, _diff Merge psa hi lo new adapt = inr (Merge adapt new [w]) ∧
        w == (psa - lo) / (hi - lo) ∧ 0 <= w ∧ w <= 1) ∧
  (lo <= psa → psa <= hi → lo == hi →
   _diff Merge psa hi lo new adapt = inl ZeroDivisionError).
Proof.
  unfold _diff, truediv. repeat split.
  - intros H. by rewrite (proj2 (Qltb_lt hi psa) H).
  - intros H1 H2.
    by rewrite (proj2 (Qltb_ge hi psa) H1), (proj2 (Qltb_lt psa lo) H2).
  - intros H1 H2 H3.
    rewrite (proj2 (Qltb_ge hi psa) H2), (proj2 (Qltb_ge psa lo) H1).
    rewrite Qeq_bool_false by lra. eexists. split; [reflexivity|].
    split; [reflexivity|].
    assert (Hi : 0 < / (hi - lo)) by (apply Qinv_lt_0_compat; lra).
    split.
    + unfold Qdiv. apply Qmult_le_0_compat; lra.
    + setoid_replace 1 with ((hi - lo) / (hi - lo)) using relation Qeq
        by (field; lra).
      unfold Qdiv. apply Qmult_le_compat_r; lra.
  - intros H1 H2 H3.
    rewrite (proj2 (Qltb_ge hi psa) H2), (proj2 (Qltb_ge psa lo) H1).
    by rewrite (proj2 (Qeq_bool_iff (hi - lo) 0)) by lra.
Qed.

(** X15: per frame, [adaptative_regrain] takes the new grain above the
    higher bound of [range_avg], the adaptive grain below the lower one, and
    in between a merge of the two whose weight lies in [0, 1]; when the two
    bounds coincide, a frame whose average equals them raises
    [ZeroDivisionError]. *)
Theorem adaptative_regrain_frames MaskedMerge Merge FrameEval
    denoised new_grained original_grained (a b : Q) luma_scaling :
  let avg := Call "std.PlaneStats" denoised [] in
  let adapt :=
    MaskedMerge new_grained original_grained
      (Call "adg.Mask" (GetY avg) [("luma_scaling", [inject_Z luma_scaling])]) in
  let lo := py_min2 a b in
  let hi := py_max2 a b in
  ∃ f,
    adaptative_regrain MaskedMerge Merge FrameEval denoised new_grained
      original_grained (a, b) luma_scaling = FrameEval denoised f [avg] ∧
    ∀ psa,
      (hi < psa → f psa = inr new_grained) ∧
      (psa < lo → f psa = inr adapt) ∧
      (lo <= psa → psa <= hi → lo < hi →
       ∃ w, f psa = inr (Merge adapt new_grained [w]) ∧
            w == (psa - lo) / (hi - lo) ∧ 0 <= w ∧ w <= 1) ∧
      (lo <= psa → psa <= hi → lo == hi → f psa = inl ZeroDivisionError).
Proof.
  intros avg adapt lo hi. eexists. split; [reflexivity|].
  intros psa. cbn [fst snd]. fold avg adapt lo hi.
  destruct (diff_cases Merge psa hi lo new_grained adapt) as (H1 & H2 & H3 & H4).
  repeat split; try done.
  intros H. apply H2; [|done].
  pose proof (py_min2_le_max2 a b). fold lo hi in H0. lra.
Qed.

Lemma adaptative_regrain_frames_witness :
  let avg := Call "std.PlaneStats" (hd gray8) [] in
  let adapt :=
    masked_merge_node (hd grayS) (hd yuv420p8)
      (Call "adg.Mask" (GetY avg) [("luma_scaling", [inject_Z 28])]) in
  ∃ f,
    adaptative_regrain masked_merge_node merge_node frame_eval_node (hd gray8)
      (hd grayS) (hd yuv420p8) (1 # 2, 2 # 5) 28
    = frame_eval_node (hd gray8) f [avg] ∧
    f (3 # 5) = inr (hd grayS) ∧
    f (3 # 10) = inr adapt ∧
    (∃ w, f (9 # 20) = inr (merge_node adapt (hd grayS) [w]) ∧
          w == ((9 # 20) - (2 # 5)) / ((1 # 2) - (2 # 5)) ∧ 0 <= w ∧ w <= 1).
Proof.
  intros avg adapt.
  destruct (adaptative_regrain_frames masked_merge_node merge_node
              frame_eval_node (hd gray8) (hd grayS) (hd yuv420p8)
              (1 # 2) (2 # 5) 28) as (f & Hf & Hcases).
  exists f. split; [exact Hf|]. split; [|split].
  - apply (Hcases (3 # 5)). reflexivity.
  - apply (Hcases (3 # 10)). reflexivity.
  - apply (Hcases (9 # 20)); vm_compute; (reflexivity || discriminate).
Defined.

(** X16: the order of the two values of [range_avg] does not matter: for
    every frame average the two orders choose the same clip, or both
    raise. *)
Theorem adaptative_regrain_range_order Merge (psa a b : Q) (new adapt : VideoNode) :
  _diff Merge psa (py_max2 a b) (py_min2 a b) new adapt
  = _diff Merge psa (py_max2 b a) (py_min2 b a) new adapt.
Proof.
  unfold py_max2, py_min2.
  destruct (Qltb a b) eqn:E1, (Qltb b a) eqn:E2; try reflexivity.
  - apply Qltb_lt in E1. apply Qltb_lt in E2. lra.
  - apply Qltb_ge in E1. apply Qltb_ge in E2.
    assert (E : a == b) by lra.
    unfold _diff, truediv, Qltb.
    rewrite (Qleb_comp psa psa (Qeq_refl _) a b E).
    rewrite (Qleb_comp a b E psa psa (Qeq_refl _)).
    rewrite (proj2 (Qeq_bool_iff (a - a) 0)) by ring.
    rewrite (proj2 (Qeq_bool_iff (b - b) 0)) by ring.
    by repeat destruct (negb _).
Qed.

(** ** upscaled_sraa *)

(** [(n + 1) & ~1] is the least even integer that is not below [n]. *)
Lemma even_up (n : Z) :
  let e := Z.land (n + 1) (Z.lnot 1) in
  Z.even e = true ∧ (n ≤ e ≤ n + 1)%Z.
Proof.
  cbv zeta.
  assert (E : Z.land (n + 1) (Z.lnot 1) = ((n + 1) / 2 * 2)%Z).
  { rewrite <- Z.ldiff_land. change 1%Z with (Z.ones 1) at 2.
    rewrite Z.ldiff_ones_r by lia.
    by rewrite Z.shiftr_div_pow2, Z.shiftl_mul_pow2 by lia. }
  rewrite E.
  pose proof (Z.div_mod (n + 1) 2 ltac:(lia)) as Hd.
  pose proof (Z.mod_pos_bound (n + 1) 2 ltac:(lia)) as Hb.
  split; [|lia].
  rewrite Z.mul_comm. apply Z.even_spec. by eexists.
Qed.

(** X17: on a clip of fixed format the super-sampler is asked for an even
    width and an even height, each the rounded scaled size or one more; the
    result goes through the single-rater and, if there is one, the
    down-scaler, to the given size, an omitted or zero height being the
    height of the clip and an omitted or zero width [get_w] of that
    height. *)
Theorem upscaled_sraa_sizes get_w clip fmt rfactor width_ height_
    supersampler downscaler singlerater :
  format clip = Some fmt →
  let rw := py_round (inject_Z (width clip) * rfactor) in
  let rh := py_round (inject_Z (height clip) * rfactor) in
  let h := or_default height_ (height clip) in
  let w := or_default width_ (get_w h) in
  ∃ ssw ssh,
    upscaled_sraa get_w clip rfactor width_ height_ supersampler downscaler
                  singlerater
    = inr (match downscaler with
           | Some scale => scale (singlerater (supersampler clip ssw ssh)) w h
           | None => singlerater (supersampler clip ssw ssh)
           end) ∧
    Z.even ssw = true ∧ (rw ≤ ssw ≤ rw + 1)%Z ∧
    Z.even ssh = true ∧ (rh ≤ ssh ≤ rh + 1)%Z.
Proof.
  intros Hf rw rh h w. unfold upscaled_sraa. rewrite Hf.
  do 2 eexists. split; [reflexivity|].
  destruct (even_up rw) as [? [? ?]], (even_up rh) as [? [? ?]]. by repeat split.
Qed.

Lemma upscaled_sraa_sizes_witness :
  ∃ ssw ssh,
    upscaled_sraa (fun h => (h * 16 / 9)%Z) (hd gray8) (3 # 2) None (Some 0%Z)
                  (resize_node "nnedi3") (Some (resize_node "Catrom"))
                  (fun c => Call "eedi3" c [])
    = inr (resize_node "Catrom"
             (Call "eedi3" (resize_node "nnedi3" (hd gray8) ssw ssh) [])
             1920 1080) ∧
    Z.even ssw = true ∧ (2880 ≤ ssw ≤ 2881)%Z ∧
    Z.even ssh = true ∧ (1620 ≤ ssh ≤ 1621)%Z.
Proof.
  apply (upscaled_sraa_sizes (fun h => (h * 16 / 9)%Z) (hd gray8) gray8 (3 # 2)
           None (Some 0%Z) (resize_node "nnedi3") (Some (resize_node "Catrom"))
           (fun c => Call "eedi3" c [])).
  reflexivity.
Defined.

(** A clip of variable format is refused with [ValueError], whatever the
    other arguments. *)
Lemma upscaled_sraa_variable_format get_w clip rfactor width_ height_
    supersampler downscaler singlerater :
  format clip = None →
  upscaled_sraa get_w clip rfactor width_ height_ supersampler downscaler
                singlerater = inl variable_format.
Proof. intros H. unfold upscaled_sraa. by rewrite H. Qed.

(** ** DuplicateFrame *)

(** X18: the arithmetic of a [DuplicateFrame] acts on the repetition count
    only: the frame number is kept, subtraction undoes addition, floor
    division by a non-zero number undoes multiplication, and floor division
    by zero raises. *)
Theorem duplicate_frame_round_trips (df : DuplicateFrame.t) (n : Z) :
  DuplicateFrame.__sub__ (DuplicateFrame.__add__ df n) n = df ∧
  DuplicateFrame.__add__ (DuplicateFrame.__sub__ df n) n = df ∧
  (n ≠ 0%Z →
   DuplicateFrame.__floordiv__ (DuplicateFrame.__mul__ df n) n = inr df) ∧
  DuplicateFrame.__floordiv__ df 0 = inl ZeroDivisionError ∧
  DuplicateFrame.x (DuplicateFrame.__add__ df n) = DuplicateFrame.x df ∧
  DuplicateFrame.x (DuplicateFrame.__sub__ df n) = DuplicateFrame.x df ∧
  DuplicateFrame.x (DuplicateFrame.__mul__ df n) = DuplicateFrame.x df.
Proof.
  destruct df as [x dup].
  unfold DuplicateFrame.__sub__, DuplicateFrame.__add__, DuplicateFrame.__mul__,
    DuplicateFrame.__floordiv__, DuplicateFrame.__new__.
  cbn.
  repeat split.
  - f_equal. lia.
  - f_equal. lia.
  - intros Hn. rewrite (proj2 (Z.eqb_neq n 0) Hn). cbn. do 2 f_equal.
    by apply Z.div_mul.
Qed.

Lemma duplicate_frame_round_trips_witness :
  let df := DuplicateFrame.__new__ 120 (Some 3%Z) in
  DuplicateFrame.__floordiv__ (DuplicateFrame.__mul__ df 4) 4 = inr df.
Proof.
  apply (proj1 (proj2 (proj2 (duplicate_frame_round_trips
                                (DuplicateFrame.__new__ 120 (Some 3%Z)) 4)))).
  lia.
Defined.

(** X19: floor division of the repetition count rounds towards minus
    infinity: for a positive divisor the quotient times the divisor is the
    largest multiple not above the count. *)
Theorem duplicate_frame_floordiv (df : DuplicateFrame.t) (n : Z) :
  (0 < n)%Z →
  ∃ r, DuplicateFrame.__floordiv__ df n = inr r ∧
       DuplicateFrame.x r = DuplicateFrame.x df ∧
       (DuplicateFrame.dup r * n ≤ DuplicateFrame.dup df
        < DuplicateFrame.dup r * n + n)%Z.
Proof.
  intros Hn. unfold DuplicateFrame.__floordiv__, DuplicateFrame.__new__.
  rewrite (proj2 (Z.eqb_neq n 0)) by lia.
  eexists. split; [reflexivity|]. cbn. split; [done|].
  pose proof (Z.div_mod (DuplicateFrame.dup df) n ltac:(lia)).
  pose proof (Z.mod_pos_bound (DuplicateFrame.dup df) n Hn). lia.
Qed.

Lemma duplicate_frame_floordiv_witness :
  ∃ r, DuplicateFrame.__floordiv__ (DuplicateFrame.__new__ 120 (Some (-7)%Z)) 2
       = inr r ∧
       DuplicateFrame.x r = 120%Z ∧
       (DuplicateFrame.dup r * 2 ≤ -7 < DuplicateFrame.dup r * 2 + 2)%Z.
Proof.
  apply (duplicate_frame_floordiv (DuplicateFrame.__new__ 120 (Some (-7)%Z)) 2).
  lia.
Defined.

(** ** Masks across bands *)

Lemma mapM_result_length {A B} (f : A → result B) (l : list A) (k : list B) :
  mapM f l = inr k → length k = length l.
Proof.
  intros H. apply mapM_result_Forall2 in H. symmetry. by eapply Forall2_length.
Qed.

(** X20: [graining] builds exactly one mask per pair of a threshold and an
    overflow, for every plane count and sample type. *)
Theorem band_masks_count self clip fmt pref peak is_float masks :
  band_masks self clip fmt pref peak is_float = inr masks →
  length masks = length (zip (thrs self) (overflows self)).
Proof.
  unfold band_masks.
  destruct (mapM _ (zip _ _)) as [e|cum] eqn:Ec; [done|].
  cbn [mbind result_bind]. rewrite exclusive_masks_zip. cbn [mbind result_bind].
  apply mapM_result_length in Ec. rewrite <- Ec.
  assert (Hl : ∀ f : VideoNode → VideoNode → VideoNode,
             length (zip_with f cum (BlankClip pref None None [0] :: cum))
             = length cum)
    by (intros f; rewrite length_zip_with; cbn [length]; lia).
  destruct (num_planes fmt =? 3)%Z.
  - destruct is_float.
    + destruct (get_plane_size clip fmt 1) as [w h].
      intros [= <-]. rewrite length_zip_with, length_fmap, Hl. lia.
    + intros [= <-]. by rewrite length_fmap, Hl.
  - intros [= <-]. by rewrite Hl.
Qed.

Lemma band_masks_count_witness :
  length two_band_masks = length (zip (thrs two_bands) (overflows two_bands)).
Proof.
  apply (band_masks_count two_bands (hd grayS) grayS (GetY (hd grayS)) 1 true).
  vm_compute. reflexivity.
Defined.

(** X21: for a non-negative peak and one overflow, a higher threshold gives
    a mask that is nowhere smaller: the exclusive mask of a band whose
    threshold is above that of the band before it is never negative. *)
Theorem mask_monotone_in_threshold (thr thr' overflow peak x : Q) :
  0 <= peak → thr <= thr' →
  (∀ v v', expr_px (mask_expr thr overflow peak) [x] = Some v →
           expr_px (mask_expr thr' overflow peak) [x] = Some v' → v <= v') ∧
  (∀ z z', _func thr overflow peak x = inr z →
           _func thr' overflow peak x = inr z' → (z ≤ z')%Z).
Proof.
  intros Hp Ht.
  assert (H : ∀ v v', expr_px (mask_expr thr overflow peak) [x] = Some v →
                      expr_px (mask_expr thr' overflow peak) [x] = Some v' →
                      v <= v').
  { intros v v' Hv Hv'.
    destruct (expr_range _ _ _ _ _ Hp Hv) as [H0 H1].
    destruct (expr_range _ _ _ _ _ Hp Hv') as [H0' H1'].
    destruct (mask_value_cases _ _ _ _ _ Hv)
      as [[Ha ->]|[(Ha & Hb & ->)|(Ha & Hb & Hz & ->)]];
    destruct (mask_value_cases _ _ _ _ _ Hv')
      as [[Hc ->]|[(Hc & Hd & ->)|(Hc & Hd & Hz' & ->)]]; try lra.
    rewrite (ramp_eq thr overflow peak x), (ramp_eq thr' overflow peak x)
      by done.
    apply Qmult_le_compat_r; [|done].
    assert (Hi : 0 < / (thr + overflow * peak / 2 - (thr - overflow * peak / 2)))
      by (apply Qinv_lt_0_compat; lra).
    setoid_replace (thr' + overflow * peak / 2 - (thr' - overflow * peak / 2))
      with (thr + overflow * peak / 2 - (thr - overflow * peak / 2))
      using relation Qeq by ring.
    unfold Qdiv in *. apply Qmult_le_compat_r; lra. }
  split; [exact H|]. intros z z' Hz Hz'.
  destruct (func_cases _ _ _ _ _ Hz) as (v & Hv & ->).
  destruct (func_cases _ _ _ _ _ Hz') as (v' & Hv' & ->).
  apply py_round_mono. by apply (H v v').
Qed.

Lemma mask_monotone_in_threshold_witness :
  (∀ v v', expr_px (mask_expr (1 # 4) (1 # 2) 1) [2 # 5] = Some v →
           expr_px (mask_expr (3 # 4) (1 # 2) 1) [2 # 5] = Some v' → v <= v') ∧
  (∀ z z', _func 64 (1 # 2) 255 100 = inr z →
           _func 192 (1 # 2) 255 100 = inr z' → (z ≤ z')%Z).
Proof.
  split.
  - apply (mask_monotone_in_threshold (1 # 4) (3 # 4) (1 # 2) 1 (2 # 5));
      vm_compute; discriminate.
  - apply (mask_monotone_in_threshold 64 192 (1 # 2) 255 100);
      vm_compute; discriminate.
Defined.

Lemma init_length_error_iff_witness :
  __init__ [64; 192] [(10, 0)] [1] [50] OvfNone default_grainers
  = inl length_error.
Proof.
  apply (proj2 (init_length_error_iff [64; 192] [(10, 0)] [1] [50] OvfNone
                  default_grainers)).
  repeat split; discriminate.
Defined.
